(** * oref_alert: the alert-to-entity reconciler and the metadata generator

    A shallow embedding of
    - [scripts/generate_metadata.py] (class [OrefMetadata]), and
    - [custom_components/oref_alert/geo_location.py]
      (classes [OrefAlertLocationEvent] and [OrefAlertLocationEventManager]),
    followed by the properties proved about them.

    Conventions.
    - A Python [str] is a [string] holding its UTF-8 bytes.  Byte-wise
      lexicographic order on UTF-8 coincides with Python's code-point
      order, and a byte-level prefix, suffix or substring match between
      well-formed UTF-8 strings is a code-point-level match, so
      [startswith], [endswith], [replace] and [list.sort] keep their
      meaning.
    - A Python [float] is a binary64 [float].
    - A Python [set] is a [gset]; [list(s)] is [elements s].  Python leaves
      that order unspecified; the code sorts right after every such
      conversion.
    - A [dict] that the code builds by insertion is an insertion-ordered
      association list ([PyDict]); a parsed JSON object or a constant table
      that is only looked up is a [gmap].
    - A raised [KeyError] or [AssertionError] is the [Raise] case of
      [result]. *)

From Stdlib Require Import Floats.
From stdpp Require Import gmap strings list sorting pretty.

Set Warnings "-inexact-float,-clear-no-such-hyp,-notation-for-abbreviation".
Set Default Proof Using "Type".

Open Scope string_scope.

(* ================================================================== *)
(** * Python run-time notions used by both files                       *)
(* ================================================================== *)

Inductive exn :=
| KeyError (key : string)
| AssertionError.

Inductive result (A : Type) :=
| Ok (a : A)
| Raise (e : exn).
Arguments Ok {A} a.
Arguments Raise {A} e.

#[global] Instance result_ret : MRet result := λ A a, Ok a.
#[global] Instance result_bind : MBind result := λ A B f m,
  match m with
  | Ok a => f a
  | Raise e => Raise e
  end.

(** [assert cond] *)
Definition assert (cond : bool) : result unit :=
  if cond then Ok tt else Raise AssertionError.

(** [for x in xs: body], threading the variables the body assigns. *)
Fixpoint for_each {A S : Type} (xs : list A) (body : S → A → result S) (s : S)
  : result S :=
  match xs with
  | [] => Ok s
  | x :: xs' => s' ← body s x; for_each xs' body s'
  end.

(** [sorted(l)] and [l.sort()] on strings. *)
Definition sorted (l : list string) : list string := merge_sort String.le l.

(** [x in l] for a list [l]. *)
Definition list_contains (x : string) (l : list string) : bool :=
  bool_decide (x ∈ l).

Module PyStr.

(** [s.startswith(p)] *)
Fixpoint startswith (s p : string) : bool :=
  match p, s with
  | "", _ => true
  | String _ _, "" => false
  | String a p', String b s' => if decide (a = b) then startswith s' p' else false
  end.

Fixpoint drop (n : nat) (s : string) : string :=
  match n, s with
  | S n', String _ s' => drop n' s'
  | _, _ => s
  end.

(** [s.endswith(p)] *)
Definition endswith (s p : string) : bool :=
  bool_decide ((String.length p ≤ String.length s)%nat ∧
               drop (String.length s - String.length p) s = p).

(** The scan of [str.replace] for a non-empty [old]: [skip] counts the
    characters of a matched occurrence still to be dropped. *)
Fixpoint replace_scan (old new : string) (skip : nat) (s : string) : string :=
  match s with
  | "" => ""
  | String c s' =>
      match skip with
      | S k => replace_scan old new k s'
      | O =>
          if startswith s old
          then new +:+ replace_scan old new (String.length old - 1) s'
          else String c (replace_scan old new 0 s')
      end
  end.

Fixpoint intersperse (new s : string) : string :=
  match s with
  | "" => ""
  | String c s' => String c (new +:+ intersperse new s')
  end.

(** [s.replace(old, new)]: every non-overlapping occurrence, leftmost
    first; an empty [old] matches before every character and at the end. *)
Definition replace (s old new : string) : string :=
  match old with
  | "" => new +:+ intersperse new s
  | _ => replace_scan old new 0 s
  end.

End PyStr.

Module PyDict.

(** An insertion-ordered dictionary with string keys. *)
Definition dict (V : Type) : Type := list (string * V).

Definition empty {V} : dict V := [].

(** [d[k]] / [d.get(k)] *)
Fixpoint getitem {V} (k : string) (d : dict V) : option V :=
  match d with
  | [] => None
  | (k', v) :: d' => if decide (k = k') then Some v else getitem k d'
  end.

(** [d[k] = v]: an existing key keeps its position. *)
Fixpoint setitem {V} (k : string) (v : V) (d : dict V) : dict V :=
  match d with
  | [] => [(k, v)]
  | (k', v') :: d' =>
      if decide (k = k') then (k', v) :: d' else (k', v') :: setitem k v d'
  end.

(** [list(d.keys())] *)
Definition keys {V} (d : dict V) : list string := d.*1.

(** [k in d] *)
Definition contains {V} (k : string) (d : dict V) : bool :=
  bool_decide (k ∈ keys d).

(** [d[k]], raising [KeyError] on a missing key. *)
Definition subscript {V} (d : dict V) (k : string) : result V :=
  match getitem k d with
  | Some v => Ok v
  | None => Raise (KeyError k)
  end.

End PyDict.

(** [m[k]] on a looked-up table, raising [KeyError] on a missing key. *)
Definition table_subscript {V} (m : gmap string V) (k : string) : result V :=
  match m !! k with
  | Some v => Ok v
  | None => Raise (KeyError k)
  end.

(* ================================================================== *)
(** * scripts/generate_metadata.py                                     *)
(* ================================================================== *)

(** One value of the generated [AREA_INFO] table; the integration reads the
    same three keys. *)
Record AreaInfo := { lat : float; long : float; en : string }.

Module Generator.
Import PyStr PyDict.

Definition CITY_ALL_AREAS_SUFFIX : string := " - כל האזורים".
(** "Hadera all areas" is listed with this typo: *)
Definition CITY_ALL_AREAS_SUFFIX_TYPO : string := " כל - האזורים".
Definition DISTRICT_PREFIX : string := "מחוז ".

(** The double-quote character. *)
Definition quote : Ascii.ascii := Ascii.ascii_of_nat 34.

Definition MISSING_CITIES : gmap string AreaInfo :=
  list_to_map [
    ("ברחבי הארץ",
     {| lat := 31.7781; long := 35.2164;
        en := "Across the country" |});
    ("גני מודיעין",
     {| lat := 31.9304; long := 35.0177;
        en := "Ganei Modi'in" |});
    ("מלאה",
     {| lat := 32.5629; long := 35.2366;
        en := "Mle'a" |});
    ("כל הארץ",
     {| lat := 31.7781; long := 35.2164;
        en := "Entire country" |});
    ("כרם בן שמן",
     {| lat := 31.9585; long := 34.934;
        en := "Kerem Ben Shemen" |});
    ("ניר יפה",
     {| lat := 32.5698; long := 35.2448;
        en := "Nir Yafeh" |});
    ("נאות חובב",
     {| lat := 31.1336; long := 34.7898;
        en := "Ne'ot Hovav" |});
    ("גדיש",
     {| lat := 32.5588; long := 35.2444;
        en := "Gadish" |});
    ("רמת רחל",
     {| lat := 31.7395; long := 35.2178;
        en := "Ramat Rachel" |});
    (("בסמ" +:+ String quote "ה"),
     {| lat := 32.5307; long := 35.1025;
        en := "Basma" |});
    ("מרכז אומן",
     {| lat := 32.5638; long := 35.2425;
        en := "Merkaz Omen" |});
    ("עין חרוד איחוד",
     {| lat := 32.5631; long := 35.3917;
        en := "Ein Harod" |});
    ("אל-ח'וואלד מערב",
     {| lat := 32.771; long := 35.1363;
        en := "Al Khawaled - West" |});
    ("אשדוד -יא,יב,טו,יז,מרינה,סיטי",
     {| lat := 31.7836; long := 34.6332;
        en := "Ashdod - Yod Alef,Yod Bet,Tet Vav,Yod Zain,Marina,City" |});
    ("אזור תעשייה מילואות צפון",
     {| lat := 33.0684; long := 35.1102;
        en := "North Miluot Industrial Zone" |})
  ]%float.

(** ** The upstream JSON documents

    Only the keys the script reads are kept. *)

(** A record of [GetCitiesMix.aspx].  The feed carries [migun_time] as a
    JSON integer. *)
Module CityMix.
Record t := { label_he : string; migun_time : Z }.
End CityMix.

(** A record of [GetDistricts.aspx]; [value] may be JSON [null]. *)
Module District.
Record t := {
  value : option string;
  label : string;
  areaname : string;
  label_he : string
}.
End District.

(** A value of the [cities] object of tzevaadom's [cities.json]. *)
Module TzevaCity.
Record t := { id : Z; lat : float; lng : float; en : string }.
End TzevaCity.

Definition polygon : Type := list (list float).

(** What [_fetch_url_json] returns for the four URLs the script reads
    ([_get_tzevaadom_data] keeps the [cities] member of the third). *)
Record Upstream := {
  cities_mix : list CityMix.t;
  districts : list District.t;
  tzeva_cities : gmap string TzevaCity.t;
  tzeva_polygons : gmap string polygon
}.

(** [int(x)] of an integer. *)
Definition int (x : Z) : Z := x.

(** [str(x)] of an integer: its decimal digits, with a leading minus. *)
Definition str (x : Z) : string := pretty x.

(** [k in m] for a looked-up table. *)
Definition table_contains {V} (k : string) (m : gmap string V) : bool :=
  bool_decide (is_Some (m !! k)).

(** [list(set(l))] *)
Definition list_of_set (l : list string) : list string :=
  elements (list_to_set l : gset string).

(** ** [OrefMetadata] *)

Definition _get_areas (cities_mix : list CityMix.t) : list string :=
  let areas :=
    list_of_set
      (map (λ area, replace (CityMix.label_he area)
                      CITY_ALL_AREAS_SUFFIX_TYPO CITY_ALL_AREAS_SUFFIX)
           cities_mix) in
  sorted areas.

Definition _get_cities_with_all_areas (backend_areas : list string)
  : list string :=
  let cities :=
    map (λ area, replace area CITY_ALL_AREAS_SUFFIX "")
        (List.filter (λ area, endswith area CITY_ALL_AREAS_SUFFIX)
                     backend_areas) in
  sorted cities.

Definition _city_to_areas_map (backend_areas areas_no_group : list string)
  : result (dict (list string)) :=
  for_each (_get_cities_with_all_areas backend_areas)
    (λ city_to_areas city,
       city_areas ←
         for_each areas_no_group
           (λ city_areas area,
              if startswith area city
              then assert (list_contains area areas_no_group);;
                   Ok (city_areas ++ [area])%list
              else Ok city_areas)
           [];
       let city_areas := sorted (list_of_set city_areas) in
       Ok (setitem (city +:+ CITY_ALL_AREAS_SUFFIX) city_areas city_to_areas))
    empty.

Definition _area_to_migun_time_map (cities_mix : list CityMix.t)
  : result (dict Z) :=
  let migun_time :=
    foldl (λ d area,
             setitem (replace (CityMix.label_he area)
                        CITY_ALL_AREAS_SUFFIX_TYPO CITY_ALL_AREAS_SUFFIX)
                     (int (CityMix.migun_time area)) d)
          empty cities_mix in
  for_each (sorted (keys migun_time))
    (λ d area, v ← subscript migun_time area; Ok (setitem area v d))
    empty.

Definition _get_districts (districts : list District.t) : list District.t :=
  List.filter
    (λ area, bool_decide (District.value area ≠ None)
             && negb (list_contains (District.label area)
                        ["כל הארץ"; "ברחבי הארץ"]))
    districts.

Definition _district_to_areas_map (fetched : list District.t)
    (areas_no_group : list string) (city_to_areas : dict (list string))
  : result (dict (list string)) :=
  let districts := _get_districts fetched in
  let district_names :=
    sorted (list_of_set (map District.areaname districts)) in
  for_each district_names
    (λ district_to_areas district,
       district_areas ←
         for_each districts
           (λ district_areas area,
              if bool_decide (District.areaname area = district)
                 && list_contains (District.label_he area) areas_no_group
              then assert (negb (contains (District.label_he area)
                                   city_to_areas));;
                   Ok (district_areas ++ [District.label_he area])%list
              else Ok district_areas)
           [];
       let district_areas := sorted (list_of_set district_areas) in
       Ok (setitem (DISTRICT_PREFIX +:+ district) district_areas
             district_to_areas))
    empty.

Definition _get_area_to_polygon (tzeva_cities : gmap string TzevaCity.t)
    (tzeva_polygons : gmap string polygon) (areas_no_group : list string)
  : result (dict polygon) :=
  let city_list :=
    sorted (elements (dom tzeva_cities ∩ list_to_set areas_no_group
                      : gset string)) in
  for_each city_list
    (λ d city,
       c ← table_subscript tzeva_cities city;
       if table_contains (str (TzevaCity.id c)) tzeva_polygons
       then c' ← table_subscript tzeva_cities city;
            p ← table_subscript tzeva_polygons (str (TzevaCity.id c'));
            Ok (setitem city p d)
       else Ok d)
    empty.

Definition _get_area_info (tzeva_cities : gmap string TzevaCity.t)
    (areas_no_group : list string) : result (dict AreaInfo) :=
  assert (bool_decide
            (size (dom MISSING_CITIES ∩ dom tzeva_cities : gset string) = 0));;
  assert (bool_decide
            (size ((list_to_set areas_no_group : gset string)
                     ∖ dom tzeva_cities ∖ dom MISSING_CITIES) = 0));;
  for_each areas_no_group
    (λ areas area,
       if table_contains area tzeva_cities
       then c ← table_subscript tzeva_cities area;
            Ok (setitem area
                  {| lat := TzevaCity.lat c;
                     long := TzevaCity.lng c;
                     en := TzevaCity.en c |} areas)
       else info ← table_subscript MISSING_CITIES area;
            Ok (setitem area info areas))
    empty.

(** The tables [__init__] computes and [generate] writes out. *)
Record OrefMetadata := {
  _backend_areas : list string;
  _areas_no_group : list string;
  _city_to_areas : dict (list string);
  _area_to_migun_time : dict Z;
  _district_to_areas : dict (list string);
  _areas_and_groups : list string;
  _area_to_polygon : dict polygon;
  _area_info : dict AreaInfo
}.

(** [OrefMetadata.__init__], on the fetched documents. *)
Definition __init__ (up : Upstream) : result OrefMetadata :=
  let backend_areas := _get_areas (cities_mix up) in
  let areas_no_group :=
    List.filter (λ area, negb (endswith area CITY_ALL_AREAS_SUFFIX))
                backend_areas in
  city_to_areas ← _city_to_areas_map backend_areas areas_no_group;
  area_to_migun_time ← _area_to_migun_time_map (cities_mix up);
  district_to_areas ←
    _district_to_areas_map (districts up) areas_no_group city_to_areas;
  let areas_and_groups :=
    sorted (areas_no_group ++ keys city_to_areas
              ++ keys district_to_areas)%list in
  assert (bool_decide
            (length areas_and_groups
             = size (list_to_set areas_and_groups : gset string)));;
  area_to_polygon ←
    _get_area_to_polygon (tzeva_cities up) (tzeva_polygons up) areas_no_group;
  area_info ← _get_area_info (tzeva_cities up) areas_no_group;
  Ok {| _backend_areas := backend_areas;
        _areas_no_group := areas_no_group;
        _city_to_areas := city_to_areas;
        _area_to_migun_time := area_to_migun_time;
        _district_to_areas := district_to_areas;
        _areas_and_groups := areas_and_groups;
        _area_to_polygon := area_to_polygon;
        _area_info := area_info |}.

End Generator.

(* ================================================================== *)
(** * custom_components/oref_alert/geo_location.py                     *)
(* ================================================================== *)

Module GeoLocation.

(** [datetime.datetime]; [tzinfo] holds the key of the attached zone. *)
Record datetime := {
  year : Z; month : Z; day : Z;
  hour : Z; minute : Z; second : Z; microsecond : Z;
  tzinfo : option string
}.

(** [dt.replace(tzinfo=tz)] *)
Definition replace_tzinfo (dt : datetime) (tz : string) : datetime :=
  {| year := year dt; month := month dt; day := day dt;
     hour := hour dt; minute := minute dt; second := second dt;
     microsecond := microsecond dt; tzinfo := Some tz |}.

(** What the module imports from files that are not part of this
    development: the generated [metadata/area_info.py], the constants of
    [const.py], three library functions, and the host's choice of an entity
    id for a suggested object id. *)
Class Env := {
  AREA_INFO : gmap string AreaInfo;
  OREF_ALERT_UNIQUE_ID : string;
  LOCATION_ID_SUFFIX : string;
  DOMAIN : string;
  IST : string;
  slugify : string → string;
  haversine : float * float → float * float → float;
  parse_datetime : string → option datetime;
  generate_entity_id : string → string
}.

(** [homeassistant.const] *)
Definition GEO_LOCATION : string := "geo_location".
Definition KILOMETERS : string := "km".
Definition ATTR_DATE : string := "date".

(** An element of [coordinator.data.active_alerts]. *)
Record Alert := { data : string; alertDate : string }.

(** The attributes [OrefAlertLocationEvent.__init__] assigns. *)
Record Entity := {
  _attr_name : string;
  _attr_unique_id : string;
  _attr_latitude : float;
  _attr_longitude : float;
  _attr_unit_of_measurement : string;
  _attr_distance : float;
  _attr_extra_state_attributes : gmap string (option datetime)
}.

(** An entry of the host's entity registry, stored under its entity id. *)
Record RegistryEntry := {
  domain : string;
  config_entry_id : option string
}.

(** A task handed to [hass.async_create_task]. *)
Inductive Task :=
| CleanupEntities (wake_at : Z)
    (** [_cleanup_entities()], asleep until the clock reaches [wake_at] *)
| EntityRemove (entity : Entity)
    (** [entity.async_remove(force_remove=True)] *).

(** The manager's attributes together with the part of the host they read
    and write.  [clock] counts whole seconds. *)
Record World := {
  _location_events : gmap string Entity;
  _config_entry_id : string;
  subscribed : bool;
  active_alerts : list Alert;
  registry : gmap string RegistryEntry;
  tasks : list Task;
  added : list (list Entity);
  clock : Z;
  config_latitude : float;
  config_longitude : float
}.

Definition set_location_events (ev : gmap string Entity) (w : World) : World :=
  {| _location_events := ev; _config_entry_id := _config_entry_id w;
     subscribed := subscribed w; active_alerts := active_alerts w;
     registry := registry w; tasks := tasks w; added := added w;
     clock := clock w; config_latitude := config_latitude w;
     config_longitude := config_longitude w |}.

Definition set_subscribed (b : bool) (w : World) : World :=
  {| _location_events := _location_events w;
     _config_entry_id := _config_entry_id w;
     subscribed := b; active_alerts := active_alerts w;
     registry := registry w; tasks := tasks w; added := added w;
     clock := clock w; config_latitude := config_latitude w;
     config_longitude := config_longitude w |}.

Definition set_active_alerts (alerts : list Alert) (w : World) : World :=
  {| _location_events := _location_events w;
     _config_entry_id := _config_entry_id w;
     subscribed := subscribed w; active_alerts := alerts;
     registry := registry w; tasks := tasks w; added := added w;
     clock := clock w; config_latitude := config_latitude w;
     config_longitude := config_longitude w |}.

Definition set_registry (reg : gmap string RegistryEntry) (w : World) : World :=
  {| _location_events := _location_events w;
     _config_entry_id := _config_entry_id w;
     subscribed := subscribed w; active_alerts := active_alerts w;
     registry := reg; tasks := tasks w; added := added w;
     clock := clock w; config_latitude := config_latitude w;
     config_longitude := config_longitude w |}.

Definition set_tasks (ts : list Task) (w : World) : World :=
  {| _location_events := _location_events w;
     _config_entry_id := _config_entry_id w;
     subscribed := subscribed w; active_alerts := active_alerts w;
     registry := registry w; tasks := ts; added := added w;
     clock := clock w; config_latitude := config_latitude w;
     config_longitude := config_longitude w |}.

Definition set_added (calls : list (list Entity)) (w : World) : World :=
  {| _location_events := _location_events w;
     _config_entry_id := _config_entry_id w;
     subscribed := subscribed w; active_alerts := active_alerts w;
     registry := registry w; tasks := tasks w; added := calls;
     clock := clock w; config_latitude := config_latitude w;
     config_longitude := config_longitude w |}.

Definition set_clock (t : Z) (w : World) : World :=
  {| _location_events := _location_events w;
     _config_entry_id := _config_entry_id w;
     subscribed := subscribed w; active_alerts := active_alerts w;
     registry := registry w; tasks := tasks w; added := added w;
     clock := t; config_latitude := config_latitude w;
     config_longitude := config_longitude w |}.

(** ** Host interface *)

(** [hass.async_create_task(t)] *)
Definition async_create_task (t : Task) (w : World) : World :=
  set_tasks (tasks w ++ [t]) w.

(** [er.async_entries_for_config_entry(registry, entry_id)] *)
Definition async_entries_for_config_entry
    (reg : gmap string RegistryEntry) (entry_id : string)
  : list (string * RegistryEntry) :=
  List.filter (λ e, bool_decide (config_entry_id e.2 = Some entry_id))
              (map_to_list reg).

(** [entity_registry.async_remove(entity_id)] *)
Definition async_remove (entity_id : string) (reg : gmap string RegistryEntry)
  : gmap string RegistryEntry :=
  delete entity_id reg.

(** [self._async_add_entities(entities)] *)
Definition async_add_entities (entities : list Entity) (w : World) : World :=
  set_added (added w ++ [entities]) w.

(** [self._coordinator.async_add_listener(self._async_update)] *)
Definition async_add_listener (w : World) : World := set_subscribed true w.

(** [{alert["data"] for alert in self._coordinator.data.active_alerts}] *)
Definition active_areas (w : World) : gset string :=
  list_to_set (map data (active_alerts w)).

(** ** [OrefAlertLocationEvent] *)
Module OrefAlertLocationEvent.

(** [__init__(self, hass, area, date)]; [w] stands for [hass], and its
    [clock] is [int(time.time())]. *)
Definition __init__ `{Env} (w : World) (area : string) (date : option datetime)
  : result Entity :=
  info_en ← table_subscript AREA_INFO area;
  let unique_id :=
    OREF_ALERT_UNIQUE_ID +:+ "_" +:+ LOCATION_ID_SUFFIX +:+ "_"
      +:+ slugify (en info_en)
      +:+ "_" +:+ pretty (clock w) in
  info_lat ← table_subscript AREA_INFO area;
  info_long ← table_subscript AREA_INFO area;
  Ok {| _attr_name := area;
        _attr_unique_id := unique_id;
        _attr_latitude := lat info_lat;
        _attr_longitude := long info_long;
        _attr_unit_of_measurement := KILOMETERS;
        _attr_distance :=
          haversine (config_latitude w, config_longitude w)
                    (lat info_lat, long info_long);
        _attr_extra_state_attributes := {[ ATTR_DATE := date ]} |}.

Definition suggested_object_id (self : Entity) : string :=
  _attr_unique_id self.

Definition async_remove_self (self : Entity) (w : World) : World :=
  async_create_task (EntityRemove self) w.

(** [self.entity_id], which the host sets when the entity is added. *)
Definition entity_id `{Env} (self : Entity) : string :=
  generate_entity_id (suggested_object_id self).

End OrefAlertLocationEvent.

(** ** [OrefAlertLocationEventManager] *)
Module OrefAlertLocationEventManager.

Definition _async_clean_start (w : World) : World :=
  let entity_registry := registry w in
  let entries :=
    async_entries_for_config_entry entity_registry (_config_entry_id w) in
  set_registry
    (foldl (λ reg entry,
              if bool_decide (domain entry.2 = GEO_LOCATION)
              then async_remove entry.1 reg
              else reg)
           entity_registry entries)
    w.

Fixpoint _alert_date_in `{Env} (alerts : list Alert) (area : string)
  : option datetime :=
  match alerts with
  | [] => None
  | alert :: alerts' =>
      if bool_decide (data alert = area)
      then match parse_datetime (alertDate alert) with
           | Some alert_date => Some (replace_tzinfo alert_date IST)
           | None => None
           end
      else _alert_date_in alerts' area
  end.

Definition _alert_date `{Env} (w : World) (area : string) : option datetime :=
  _alert_date_in (active_alerts w) area.

(** The part of [_cleanup_entities] before its only suspension point:
    [await asyncio.sleep(10)]. *)
Definition _cleanup_entities_sleep : Z := 10.

(** The part of [_cleanup_entities] after the sleep. *)
Definition _cleanup_entities_resumed `{Env} (w : World) : World :=
  let active := active_areas w in
  let areas_to_delete := dom (_location_events w) ∖ active in
  foldl (λ w area,
           match _location_events w !! area with
           | Some entity =>
               let w := set_location_events (delete area (_location_events w)) w in
               let w := OrefAlertLocationEvent.async_remove_self entity w in
               set_registry
                 (async_remove (OrefAlertLocationEvent.entity_id entity)
                    (registry w)) w
           | None => w
           end)
        w (elements areas_to_delete).

(** [self._cleanup_entities()]: the coroutine object, which runs up to its
    sleep once scheduled. *)
Definition _cleanup_entities (w : World) : Task :=
  CleanupEntities (clock w + _cleanup_entities_sleep).

Definition _async_update `{Env} (w : World) : result World :=
  let active := active_areas w in
  let exists_ := dom (_location_events w) in
  to_add ←
    for_each (elements (active ∖ exists_))
      (λ (to_add : gmap string Entity) area,
         if bool_decide (is_Some (AREA_INFO !! area))
         then entity ← OrefAlertLocationEvent.__init__ w area (_alert_date w area);
              Ok (<[area := entity]> to_add)
         else Ok to_add)
      ∅;
  let w := set_location_events (to_add ∪ _location_events w) w in
  let w := async_add_entities (map_to_list to_add).*2 w in
  if bool_decide (size (exists_ ∖ active) ≠ 0)
  then Ok (async_create_task (_cleanup_entities w) w)
  else Ok w.

(** [__init__(self, hass, config_entry, async_add_entities)]: [w] is the
    host at the time of the call and [entry_id] is
    [config_entry.entry_id]. *)
Definition __init__ `{Env} (w : World) (entry_id : string) : result World :=
  let w :=
    {| _location_events := ∅; _config_entry_id := entry_id;
       subscribed := subscribed w; active_alerts := active_alerts w;
       registry := registry w; tasks := tasks w; added := added w;
       clock := clock w; config_latitude := config_latitude w;
       config_longitude := config_longitude w |} in
  let w := _async_clean_start w in
  let w := async_add_listener w in
  _async_update w.

End OrefAlertLocationEventManager.

(** ** The event loop

    What can happen to a manager once it is constructed: the coordinator
    publishes a refreshed alert list and calls its listeners, time passes,
    or the loop resumes a task whose sleep is over. *)
Inductive event :=
| Refresh (alerts : list Alert)
| Tick (seconds : Z)
| Resume (i : nat).

Import OrefAlertLocationEventManager.

Inductive step `{Env} : World → event → World → Prop :=
| step_refresh w alerts w' :
    subscribed w = true →
    _async_update (set_active_alerts alerts w) = Ok w' →
    step w (Refresh alerts) w'
| step_refresh_unheard w alerts :
    subscribed w = false →
    step w (Refresh alerts) (set_active_alerts alerts w)
| step_tick w seconds :
    (0 ≤ seconds)%Z →
    step w (Tick seconds) (set_clock (clock w + seconds) w)
| step_resume_cleanup w i wake_at :
    tasks w !! i = Some (CleanupEntities wake_at) →
    (wake_at ≤ clock w)%Z →
    step w (Resume i)
         (_cleanup_entities_resumed (set_tasks (delete i (tasks w)) w))
| step_resume_remove w i entity :
    tasks w !! i = Some (EntityRemove entity) →
    step w (Resume i) (set_tasks (delete i (tasks w)) w).

(** A run: the events in order, from the first state to the last. *)
Inductive run `{Env} : World → list event → World → Prop :=
| run_nil w : run w [] w
| run_cons w e w' es w'' : step w e w' → run w' es w'' → run w (e :: es) w''.

(** The cleanup tasks still pending. *)
Definition pending_cleanups (w : World) : list Task :=
  List.filter (λ t, match t with CleanupEntities _ => true | _ => false end)
              (tasks w).

End GeoLocation.

(* ================================================================== *)
(** * Sample inputs                                                    *)
(* ================================================================== *)

Module Sample.
Import Generator GeoLocation.

(** Four records of the cities-mix feed; the first carries the typo. *)
Definition mix : list CityMix.t := [
  {| CityMix.label_he := "חדרה כל - האזורים"; CityMix.migun_time := 90 |};
  {| CityMix.label_he := "חדרה - מערב"; CityMix.migun_time := 90 |};
  {| CityMix.label_he := "גדיש"; CityMix.migun_time := 60 |};
  {| CityMix.label_he := "אבו גוש"; CityMix.migun_time := 90 |}
].

(** A feed that lists "גדיש" twice, with different shelter times. *)
Definition mix_repeated : list CityMix.t := [
  {| CityMix.label_he := "גדיש"; CityMix.migun_time := 30 |};
  {| CityMix.label_he := "גדיש"; CityMix.migun_time := 60 |};
  {| CityMix.label_he := "אבו גוש"; CityMix.migun_time := 90 |}
].

Definition cities : gmap string TzevaCity.t :=
  {[ "אבו גוש" :=
       {| TzevaCity.id := 511; TzevaCity.lat := 31.8064;
          TzevaCity.lng := 35.1092; TzevaCity.en := "Abu Gosh" |};
     "חדרה - מערב" :=
       {| TzevaCity.id := 7; TzevaCity.lat := 32.4379;
          TzevaCity.lng := 34.9052; TzevaCity.en := "Hadera - West" |} ]}.

Definition upstream : Upstream := {|
  cities_mix := mix;
  districts := [
    {| District.value := Some "6657";
       District.label := "חדרה - מערב";
       District.areaname := "שרון";
       District.label_he := "חדרה - מערב" |} ];
  tzeva_cities := cities;
  tzeva_polygons := {[ "511" := [[31.8; 35.1]; [31.81; 35.11]]%float ]}
|}.

Definition metadata : OrefMetadata :=
  Eval vm_compute in
    match __init__ upstream with
    | Ok md => md
    | Raise _ =>
        {| _backend_areas := []; _areas_no_group := [];
           _city_to_areas := []; _area_to_migun_time := [];
           _district_to_areas := []; _areas_and_groups := [];
           _area_to_polygon := []; _area_info := [] |}
    end.

(** An environment whose area table is the generator's own
    [MISSING_CITIES]. *)
Definition env : Env := {|
  AREA_INFO := MISSING_CITIES;
  OREF_ALERT_UNIQUE_ID := "oref_alert";
  LOCATION_ID_SUFFIX := "location";
  DOMAIN := "oref_alert";
  IST := "Asia/Jerusalem";
  slugify := λ s, s;
  haversine := λ _ _, 0%float;
  parse_datetime := λ _, None;
  generate_entity_id := λ s, GEO_LOCATION +:+ "." +:+ s
|}.

Definition gadish : Alert :=
  {| data := "גדיש"; alertDate := "2024-10-01 19:31:00" |}.

(** An alert for an area that [MISSING_CITIES] does not list. *)
Definition abu_gosh : Alert :=
  {| data := "אבו גוש"; alertDate := "2024-10-01 19:31:00" |}.

(** A host with one stale geo-location entry of this config entry, one
    sensor of it, and one geo-location entry of another integration. *)
Definition host : World := {|
  _location_events := ∅;
  _config_entry_id := "";
  subscribed := false;
  active_alerts := [];
  registry :=
    {[ "geo_location.oref_alert_location_gadish_1" :=
         {| domain := "geo_location"; config_entry_id := Some "entry1" |};
       "binary_sensor.oref_alert" :=
         {| domain := "binary_sensor"; config_entry_id := Some "entry1" |};
       "geo_location.quake_7" :=
         {| domain := "geo_location"; config_entry_id := Some "entry2" |} ]};
  tasks := [];
  added := [];
  clock := 1727800260;
  config_latitude := 32.0853;
  config_longitude := 34.7818
|}.

(** The host while "אבו גוש", which [MISSING_CITIES] does not list, is
    under alert. *)
Definition host_unlisted : World := set_active_alerts [abu_gosh] host.

(** An alert for "רמת רחל", which [MISSING_CITIES] lists. *)
Definition ramat_rachel : Alert :=
  {| data := "רמת רחל"; alertDate := "2024-10-01 19:33:00" |}.

(** A second, later alert for "גדיש". *)
Definition gadish_later : Alert :=
  {| data := "גדיש"; alertDate := "2024-10-01 19:35:00" |}.

(** The same environment with a [parse_datetime] that reads the dates of
    the three alerts below. *)
Definition at_time (h m : Z) : datetime :=
  {| year := 2024; month := 10; day := 1; hour := h; minute := m;
     second := 0; microsecond := 0; tzinfo := None |}.

Definition env_dated : Env := {|
  AREA_INFO := MISSING_CITIES;
  OREF_ALERT_UNIQUE_ID := "oref_alert";
  LOCATION_ID_SUFFIX := "location";
  DOMAIN := "oref_alert";
  IST := "Asia/Jerusalem";
  slugify := λ s, s;
  haversine := λ _ _, 0%float;
  parse_datetime := λ s,
    if decide (s = "2024-10-01 19:29:00") then Some (at_time 19 29)
    else if decide (s = "2024-10-01 19:31:00") then Some (at_time 19 31)
    else if decide (s = "2024-10-01 19:35:00") then Some (at_time 19 35)
    else None;
  generate_entity_id := λ s, GEO_LOCATION +:+ "." +:+ s
|}.

(** The host while the feed lists "אבו גוש" at 19:29 and then "גדיש" at
    19:31 and again at 19:35. *)
Definition host_dated : World :=
  set_active_alerts
    [{| data := "אבו גוש"; alertDate := "2024-10-01 19:29:00" |};
     gadish; gadish_later]
    host.

(** The manager constructed on the host while "גדיש" is under alert. *)
Definition started : World :=
  match
    OrefAlertLocationEventManager.__init__ (H := env)
      (set_active_alerts [gadish] host) "entry1"
  with
  | Ok w => w
  | Raise _ => host
  end.

(** That manager after a refresh that still lists "גדיש". *)
Definition refreshed : World :=
  match
    OrefAlertLocationEventManager._async_update (H := env)
      (set_active_alerts [gadish; abu_gosh] started)
  with
  | Ok w => w
  | Raise _ => started
  end.

(** That manager after a refresh that no longer lists "גדיש", and ten
    seconds later. *)
Definition cleared : World :=
  match
    OrefAlertLocationEventManager._async_update (H := env)
      (set_active_alerts [abu_gosh] started)
  with
  | Ok w => w
  | Raise _ => started
  end.

Definition cleared_later : World := set_clock (clock cleared + 10) cleared.

End Sample.

(* ================================================================== *)
(** * Properties of the run-time notions                               *)
(* ================================================================== *)

Section sorting_facts.

Lemma sorted_Sorted l : Sorted String.le (sorted l).
Proof. apply (Sorted_merge_sort String.le). Qed.

Lemma sorted_perm l : sorted l ≡ₚ l.
Proof. apply merge_sort_Permutation. Qed.

Lemma elem_of_sorted x l : x ∈ sorted l ↔ x ∈ l.
Proof. by rewrite sorted_perm. Qed.

Lemma sorted_NoDup l : NoDup l → NoDup (sorted l).
Proof. by rewrite sorted_perm. Qed.

(** Sorting forgets the order it was given. *)
Lemma sorted_proper l1 l2 : l1 ≡ₚ l2 → sorted l1 = sorted l2.
Proof.
  intros Hp. apply (Sorted_unique String.le); try apply sorted_Sorted.
  by rewrite !sorted_perm.
Qed.

Lemma sorted_idemp l : Sorted String.le l → sorted l = l.
Proof.
  intros Hs. apply (Sorted_unique String.le); auto using sorted_Sorted.
  apply sorted_perm.
Qed.

Lemma Sorted_filter (f : string → bool) l :
  Sorted String.le l → Sorted String.le (List.filter f l).
Proof.
  intros Hs%(Sorted_StronglySorted String.le).
  apply StronglySorted_Sorted.
  induction Hs as [|x l Hl IH Hx]; simpl; [constructor|].
  destruct (f x); [|done]. constructor; [done|].
  apply Forall_forall. intros y Hy%list_elem_of_In%filter_In.
  rewrite Forall_forall in Hx. apply Hx, list_elem_of_In, Hy.
Qed.

End sorting_facts.

Section set_facts.
Import Generator.

Lemma elem_of_list_of_set x l : x ∈ list_of_set l ↔ x ∈ l.
Proof. unfold list_of_set. rewrite elem_of_elements. set_solver. Qed.

Lemma NoDup_list_of_set l : NoDup (list_of_set l).
Proof. unfold list_of_set. apply NoDup_elements. Qed.

(** A list as long as its underlying set repeats nothing. *)
Lemma length_size_NoDup (l : list string) :
  length l = size (list_to_set l : gset string) → NoDup l.
Proof.
  assert (Hle : ∀ l : list string,
            (size (list_to_set l : gset string) ≤ length l)%nat).
  { clear l. induction l as [|x l IH]; simpl; [done|].
    destruct (decide (x ∈ (list_to_set l : gset string))) as [Hx|Hx].
    - assert ({[x]} ∪ list_to_set l = (list_to_set l : gset string)) as ->
        by set_solver. lia.
    - rewrite size_union by set_solver. rewrite size_singleton. lia. }
  induction l as [|x l IH]; simpl; [constructor|].
  intros Hlen.
  destruct (decide (x ∈ (list_to_set l : gset string))) as [Hx|Hx].
  - assert ({[x]} ∪ list_to_set l = (list_to_set l : gset string)) as Heq
      by set_solver.
    rewrite Heq in Hlen. specialize (Hle l). lia.
  - rewrite size_union, size_singleton in Hlen by set_solver.
    constructor; [set_solver|]. apply IH. lia.
Qed.

End set_facts.

Section loop_facts.
Context {A S : Type}.

(** A loop whose body never raises on the elements it meets is a fold. *)
Lemma for_each_pure (xs : list A) (body : S → A → result S) (f : S → A → S) s :
  (∀ s x, x ∈ xs → body s x = Ok (f s x)) →
  for_each xs body s = Ok (foldl f s xs).
Proof.
  revert s. induction xs as [|x xs IH]; intros s Hbody; simpl; [done|].
  rewrite Hbody by left. simpl. apply IH.
  intros s' y Hy. apply Hbody. by right.
Qed.

End loop_facts.

(** A sequence of two steps returns only when both do. *)
Lemma bind_Ok {A B} (m : result A) (f : A → result B) (b : B) :
  m ≫= f = Ok b → ∃ a, m = Ok a ∧ f a = Ok b.
Proof. destruct m as [a|e]; [|done]. intros. by exists a. Qed.

Lemma assert_Ok (cond : bool) (u : unit) : assert cond = Ok u → cond = true.
Proof. by destruct cond. Qed.

Section string_facts.
Import PyStr.

Lemma app_cons a (s1 s2 : string) : String a s1 +:+ s2 = String a (s1 +:+ s2).
Proof. reflexivity. Qed.

Lemma app_empty_l (s : string) : "" +:+ s = s.
Proof. reflexivity. Qed.

Lemma str_length_app (s1 s2 : string) :
  String.length (s1 +:+ s2) = (String.length s1 + String.length s2)%nat.
Proof.
  induction s1 as [|a s1 IH]; [done|].
  rewrite app_cons. simpl. by rewrite IH.
Qed.

(** [c +:+ s] determines [c] once [s] is fixed. *)
Lemma app_inj_suffix (s : string) : Inj (=) (=) (λ c, c +:+ s).
Proof.
  intros c1. induction c1 as [|a c1 IH]; intros [|b c2] Heq; simpl in Heq.
  - done.
  - apply (f_equal String.length) in Heq.
    rewrite app_empty_l, app_cons in Heq. simpl in Heq.
    rewrite str_length_app in Heq. lia.
  - apply (f_equal String.length) in Heq.
    rewrite app_empty_l, app_cons in Heq. simpl in Heq.
    rewrite str_length_app in Heq. lia.
  - rewrite !app_cons in Heq. injection Heq as -> Heq. f_equal. by apply IH.
Qed.

Lemma startswith_spec s p : startswith s p = true ↔ ∃ r, s = p +:+ r.
Proof.
  revert s. induction p as [|a p IH]; intros s.
  - destruct s; simpl; split; eauto.
  - destruct s as [|b s]; simpl.
    + split; [done|]. intros [r Hr]. by rewrite app_cons in Hr.
    + destruct (decide (a = b)) as [->|Hne].
      * rewrite IH. split; intros [r Hr]; exists r.
        -- by rewrite app_cons, Hr.
        -- rewrite app_cons in Hr. by injection Hr.
      * split; [done|]. intros [r Hr]. rewrite app_cons in Hr. congruence.
Qed.

Lemma startswith_refl s : startswith s s = true.
Proof.
  apply startswith_spec. exists "". induction s as [|a s IH]; [done|].
  by rewrite app_cons, <-IH.
Qed.

Lemma drop_app (p s : string) : drop (String.length p) (p +:+ s) = s.
Proof. induction p as [|a p IH]; [by destruct s|]. by rewrite app_cons. Qed.

Lemma app_drop n (s : string) :
  (n ≤ String.length s)%nat → ∃ p, s = p +:+ drop n s ∧ String.length p = n.
Proof.
  revert s. induction n as [|n IH]; intros s Hn.
  - exists "". by destruct s.
  - destruct s as [|a s]; simpl in *; [lia|].
    destruct (IH s) as (p & Hp & Hlen); [lia|].
    exists (String a p). rewrite app_cons, <-Hp. simpl. auto.
Qed.

Lemma endswith_spec s p : endswith s p = true ↔ ∃ r, s = r +:+ p.
Proof.
  unfold endswith. rewrite bool_decide_eq_true. split.
  - intros [Hlen Hdrop].
    destruct (app_drop (String.length s - String.length p) s) as (r & Hr & _);
      [lia|].
    exists r. by rewrite Hdrop in Hr.
  - intros [r ->]. rewrite str_length_app. split; [lia|].
    replace (String.length r + String.length p - String.length p)%nat
      with (String.length r) by lia.
    apply drop_app.
Qed.

End string_facts.

Section dict_facts.
Import PyDict.
Context {V : Type}.
Implicit Types (d : dict V) (k : string) (v : V).

Lemma getitem_setitem k v d k' :
  getitem k' (setitem k v d) = if decide (k' = k) then Some v else getitem k' d.
Proof.
  induction d as [|[k0 v0] d IH]; simpl.
  - done.
  - destruct (decide (k = k0)) as [->|Hk]; simpl.
    + by destruct (decide (k' = k0)).
    + rewrite IH. destruct (decide (k' = k0)) as [->|?]; [|done].
      by rewrite decide_False by done.
Qed.

Lemma keys_setitem k v d :
  keys (setitem k v d) = if decide (k ∈ keys d) then keys d else (keys d ++ [k])%list.
Proof.
  unfold keys. induction d as [|[k0 v0] d IH].
  - by rewrite decide_False by apply not_elem_of_nil.
  - cbn [setitem]. destruct (decide (k = k0)) as [->|Hne].
    + rewrite !fmap_cons. cbn [fst]. by rewrite decide_True by left.
    + rewrite !fmap_cons, IH. cbn [fst].
      destruct (decide (k ∈ d.*1)) as [Hin|Hin].
      * by rewrite decide_True by (by right).
      * rewrite decide_False; [done|]. by intros [?|?]%elem_of_cons.
Qed.

Lemma elem_of_keys_setitem k v d k' :
  k' ∈ keys (setitem k v d) ↔ k' = k ∨ k' ∈ keys d.
Proof.
  rewrite keys_setitem. case_decide.
  - naive_solver.
  - rewrite elem_of_app, list_elem_of_singleton. naive_solver.
Qed.

Lemma NoDup_keys_setitem k v d : NoDup (keys d) → NoDup (keys (setitem k v d)).
Proof.
  intros Hd. rewrite keys_setitem. case_decide; [done|].
  apply NoDup_app. split_and!; [done| |apply NoDup_singleton].
  intros x Hx ->%list_elem_of_singleton. done.
Qed.

Lemma elem_of_keys_getitem k d : k ∈ keys d ↔ is_Some (getitem k d).
Proof.
  unfold keys. induction d as [|[k0 v0] d IH]; simpl.
  - split; [by intros ?%elem_of_nil|by intros [? ?]].
  - rewrite elem_of_cons, IH. case_decide; naive_solver.
Qed.

(** ** A dictionary filled by a loop that assigns [key x] ↦ [val x] *)
Section assign_loop.
Context {A : Type} (key : A → string) (val : A → V).

Local Notation assign_all d0 xs :=
  (foldl (λ acc x, setitem (key x) (val x) acc) d0 xs) (only parsing).

Lemma assign_all_snoc d xs x :
  assign_all d (xs ++ [x]) = setitem (key x) (val x) (assign_all d xs).
Proof. by rewrite foldl_app. Qed.

Lemma assign_all_keys d xs k :
  k ∈ keys (assign_all d xs) ↔ k ∈ keys d ∨ k ∈ key <$> xs.
Proof.
  induction xs as [|x xs IH] using rev_ind.
  - simpl. rewrite elem_of_nil. naive_solver.
  - rewrite assign_all_snoc, elem_of_keys_setitem, IH, fmap_app, elem_of_app.
    simpl. rewrite list_elem_of_singleton. naive_solver.
Qed.

Lemma assign_all_NoDup d xs : NoDup (keys d) → NoDup (keys (assign_all d xs)).
Proof.
  intros Hd. induction xs as [|x xs IH] using rev_ind; [done|].
  rewrite assign_all_snoc. by apply NoDup_keys_setitem.
Qed.

(** Every value stored by the loop was computed from an element with that
    key. *)
Lemma assign_all_getitem xs k v :
  getitem k (assign_all empty xs) = Some v →
  ∃ x, x ∈ xs ∧ key x = k ∧ val x = v.
Proof.
  induction xs as [|x xs IH] using rev_ind; [done|].
  rewrite assign_all_snoc, getitem_setitem.
  case_decide as Hk.
  - intros [= <-]. exists x. rewrite elem_of_app, list_elem_of_singleton. auto.
  - intros (y & ? & ? & ?)%IH. exists y. rewrite elem_of_app. auto.
Qed.

(** When the value depends on the key alone, the loop stores it. *)
Lemma assign_all_getitem_inj d xs x :
  Inj (=) (=) key → x ∈ xs →
  getitem (key x) (assign_all d xs) = Some (val x).
Proof.
  intros Hinj. induction xs as [|y xs IH] using rev_ind.
  - by intros ?%elem_of_nil.
  - rewrite assign_all_snoc, getitem_setitem, elem_of_app, list_elem_of_singleton.
    case_decide as Hk.
    + apply Hinj in Hk as ->. done.
    + intros [?| ->]; [auto|done].
Qed.

End assign_loop.

(** ** A dictionary comprehension [{x: v for x in xs if ...}], where [h x]
    is [Some v] when [x] passes the condition *)
Section comprehension.
Context (h : string → option V).

Local Notation comprehend d0 xs :=
  (foldl (λ acc x, match h x with Some v => setitem x v acc | None => acc end)
         d0 xs) (only parsing).

Lemma comprehend_getitem d xs k :
  getitem k (comprehend d xs)
  = match (if decide (k ∈ xs) then h k else None) with
    | Some v => Some v
    | None => getitem k d
    end.
Proof.
  revert d. induction xs as [|x xs IH]; intros d; cbn [foldl].
  - by rewrite decide_False by apply not_elem_of_nil.
  - rewrite IH.
    destruct (decide (k ∈ xs)) as [Hin|Hin].
    + rewrite decide_True by (by right).
      destruct (h k) eqn:Hk; [done|].
      destruct (h x) eqn:Hx; [|done]. rewrite getitem_setitem.
      case_decide; [congruence|done].
    + destruct (decide (k = x)) as [->|Hne].
      * rewrite decide_True by left.
        destruct (h x); [|done]. rewrite getitem_setitem.
        by rewrite decide_True.
      * rewrite decide_False by (by intros [?|?]%elem_of_cons).
        destruct (h x); [|done]. rewrite getitem_setitem.
        by rewrite decide_False.
Qed.

Lemma comprehend_NoDup d xs :
  NoDup (keys d) → NoDup (keys (comprehend d xs)).
Proof.
  revert d. induction xs as [|x xs IH]; intros d Hd; cbn [foldl]; [done|].
  apply IH. destruct (h x); [by apply NoDup_keys_setitem|done].
Qed.

Lemma comprehend_keys d xs :
  NoDup xs →
  keys (comprehend d xs)
  = (keys d ++ List.filter
                 (λ x, bool_decide (is_Some (h x) ∧ x ∉ keys d)) xs)%list.
Proof.
  revert d. induction xs as [|x xs IH]; intros d Hnd; cbn [foldl List.filter].
  - by rewrite app_nil_r.
  - apply NoDup_cons in Hnd as [Hx Hnd]. rewrite IH by done.
    assert (Hsame : ∀ ks : list string,
              (∀ y, y ∈ xs → y ∈ ks ↔ y ∈ keys d) →
              List.filter (λ y, bool_decide (is_Some (h y) ∧ y ∉ ks)) xs
              = List.filter (λ y, bool_decide (is_Some (h y) ∧ y ∉ keys d)) xs).
    { intros ks Hks. apply filter_ext_in. intros y Hy%list_elem_of_In.
      apply bool_decide_ext. rewrite Hks by done. done. }
    destruct (h x) as [v|] eqn:Hhx.
    + rewrite keys_setitem. destruct (decide (x ∈ keys d)) as [Hin|Hin].
      * rewrite bool_decide_false by naive_solver. done.
      * rewrite bool_decide_true by (split; [by eexists|done]).
        rewrite <-app_assoc. simpl. f_equal. f_equal. apply Hsame.
        intros y Hy. rewrite elem_of_app, list_elem_of_singleton.
        split; [intros [?| ->]; [done|by destruct Hx]|auto].
    + rewrite bool_decide_false by (intros [[? ?] _]; congruence). done.
Qed.

Lemma comprehend_keys_empty xs :
  NoDup xs →
  keys (comprehend empty xs)
  = List.filter (λ x, bool_decide (is_Some (h x))) xs.
Proof.
  intros Hnd. rewrite comprehend_keys by done. simpl.
  apply filter_ext. intros x. apply bool_decide_ext.
  split; [naive_solver|]. split; [done|apply not_elem_of_nil].
Qed.

End comprehension.

End dict_facts.

(* ================================================================== *)
(** * Properties of the metadata generator                             *)
(* ================================================================== *)

Section generator_facts.
Import PyStr PyDict Generator.

(** The label of a cities-mix record after the typo is repaired. *)
Local Notation repaired area :=
  (replace (CityMix.label_he area)
     CITY_ALL_AREAS_SUFFIX_TYPO CITY_ALL_AREAS_SUFFIX) (only parsing).

Lemma filter_all {A} (f : A → bool) (l : list A) :
  (∀ x, x ∈ l → f x = true) → List.filter f l = l.
Proof.
  induction l as [|x l IH]; intros Hall; simpl; [done|].
  rewrite Hall by left. f_equal. apply IH. intros y Hy. apply Hall. by right.
Qed.

Lemma elem_of_get_areas cities_mix x :
  x ∈ _get_areas cities_mix ↔ ∃ area, area ∈ cities_mix ∧ repaired area = x.
Proof.
  unfold _get_areas. rewrite elem_of_sorted, elem_of_list_of_set.
  rewrite list_elem_of_In, in_map_iff.
  split; intros (a & ? & ?); exists a; by rewrite ?list_elem_of_In in *.
Qed.

Lemma get_areas_NoDup cities_mix : NoDup (_get_areas cities_mix).
Proof. apply sorted_NoDup, NoDup_list_of_set. Qed.

Lemma get_areas_Sorted cities_mix : Sorted String.le (_get_areas cities_mix).
Proof. apply sorted_Sorted. Qed.

(** The example of the source comment: the mistyped "Hadera all areas". *)
Example repaired_hadera :
  replace "חדרה כל - האזורים" CITY_ALL_AREAS_SUFFIX_TYPO CITY_ALL_AREAS_SUFFIX
  = "חדרה" +:+ CITY_ALL_AREAS_SUFFIX.
Proof. reflexivity. Qed.

(** C6.  The shelter-time table is built from the same repaired labels as
    the backend area list: [_area_to_migun_time_map] returns a dictionary
    whose keys, in order, are exactly [_get_areas], and every key maps to
    [int(migun_time)] of a cities-mix record whose repaired [label_he] is
    that key. *)
Theorem area_to_migun_time_matches_areas (cities_mix : list CityMix.t) :
  ∃ d, _area_to_migun_time_map cities_mix = Ok d
     ∧ keys d = _get_areas cities_mix
     ∧ ∀ k, k ∈ _get_areas cities_mix →
         ∃ area, area ∈ cities_mix ∧ repaired area = k
               ∧ getitem k d = Some (int (CityMix.migun_time area)).
Proof.
  unfold _area_to_migun_time_map.
  set (M := foldl _ empty cities_mix).
  assert (HMkeys : ∀ k, k ∈ keys M ↔ k ∈ _get_areas cities_mix).
  { intros k. subst M.
    rewrite (assign_all_keys (λ area, repaired area)), elem_of_get_areas.
    rewrite list_elem_of_fmap. split.
    - intros [?%elem_of_nil|(a & -> & ?)]; [done|]. by exists a.
    - intros (a & ? & <-). right. by exists a. }
  assert (HMnd : NoDup (keys M)).
  { subst M. apply (assign_all_NoDup (λ area, repaired area)). constructor. }
  assert (Hsort : sorted (keys M) = _get_areas cities_mix).
  { unfold _get_areas. apply sorted_proper, NoDup_Permutation;
      [done|apply NoDup_list_of_set|].
    intros k. rewrite HMkeys. unfold _get_areas.
    by rewrite elem_of_sorted. }
  rewrite (for_each_pure _ _
             (λ d area, match getitem area M with
                        | Some v => setitem area v d
                        | None => d
                        end)).
  2:{ intros d area Hin. rewrite elem_of_sorted in Hin.
      apply elem_of_keys_getitem in Hin as [v Hv].
      unfold subscript. by rewrite Hv. }
  eexists. split; [done|]. split.
  - rewrite comprehend_keys_empty by (by apply sorted_NoDup).
    rewrite filter_all; [done|].
    intros k Hk. apply bool_decide_eq_true, elem_of_keys_getitem.
    by rewrite elem_of_sorted in Hk.
  - intros k Hk. rewrite comprehend_getitem, Hsort.
    rewrite decide_True by done.
    apply HMkeys, elem_of_keys_getitem in Hk as [v Hv]. rewrite Hv.
    apply (assign_all_getitem (λ area, repaired area)) in Hv
      as (a & ? & ? & <-).
    by exists a.
Qed.

(** The inner loop of [_city_to_areas_map] and of
    [_district_to_areas_map]: appending the elements that pass a test. *)
Lemma foldl_append_if {A B} (test : A → bool) (g : A → B) (xs : list A) acc :
  foldl (λ acc x, if test x then (acc ++ [g x])%list else acc) acc xs
  = (acc ++ map g (List.filter test xs))%list.
Proof.
  revert acc. induction xs as [|x xs IH]; intros acc; simpl.
  - by rewrite app_nil_r.
  - rewrite IH. destruct (test x); [|done]. by rewrite <-app_assoc.
Qed.

(** C7.  For every backend area that ends with the all-areas suffix, with
    [city] the area stripped of the suffix (as [_get_cities_with_all_areas]
    strips it), [_city_to_areas_map] returns a table that maps
    [city + CITY_ALL_AREAS_SUFFIX] to the sorted, duplicate-free list of
    exactly the non-group areas that start with [city]; [city] itself is
    in that list when it is a non-group area. *)
Theorem city_group_is_prefix_matches
    (backend_areas areas_no_group : list string) (area : string) :
  area ∈ backend_areas →
  endswith area CITY_ALL_AREAS_SUFFIX = true →
  let city := replace area CITY_ALL_AREAS_SUFFIX "" in
  ∃ city_to_areas city_areas,
    _city_to_areas_map backend_areas areas_no_group = Ok city_to_areas
    ∧ getitem (city +:+ CITY_ALL_AREAS_SUFFIX) city_to_areas = Some city_areas
    ∧ Sorted String.le city_areas
    ∧ NoDup city_areas
    ∧ (∀ a, a ∈ city_areas ↔ a ∈ areas_no_group ∧ startswith a city = true)
    ∧ (city ∈ areas_no_group → city ∈ city_areas).
Proof.
  intros Harea Hends city.
  set (val := λ c : string,
         sorted (list_of_set
                   (List.filter (λ a, startswith a c) areas_no_group))).
  assert (Hcity : city ∈ _get_cities_with_all_areas backend_areas).
  { unfold _get_cities_with_all_areas. rewrite elem_of_sorted.
    apply list_elem_of_fmap. exists area. split; [done|].
    apply list_elem_of_In, filter_In. by rewrite <-list_elem_of_In. }
  assert (Hmem : ∀ a, a ∈ val city ↔
                      a ∈ areas_no_group ∧ startswith a city = true).
  { intros a. unfold val.
    rewrite elem_of_sorted, elem_of_list_of_set, list_elem_of_In, filter_In.
    by rewrite list_elem_of_In. }
  exists (foldl (λ d c, setitem (c +:+ CITY_ALL_AREAS_SUFFIX) (val c) d) empty
            (_get_cities_with_all_areas backend_areas)), (val city).
  split_and!.
  - unfold _city_to_areas_map. apply for_each_pure. intros d c _.
    rewrite (for_each_pure _ _
               (λ acc a, if startswith a c then (acc ++ [a])%list else acc)).
    + rewrite (foldl_append_if (λ a, startswith a c) (λ a, a)).
      by rewrite map_id.
    + intros acc a Ha. destruct (startswith a c); [|done].
      unfold list_contains. by rewrite bool_decide_true.
  - apply (assign_all_getitem_inj (λ c, c +:+ CITY_ALL_AREAS_SUFFIX) val);
      [apply app_inj_suffix|done].
  - apply sorted_Sorted.
  - apply sorted_NoDup, NoDup_list_of_set.
  - done.
  - intros Hin. apply Hmem. split; [done|apply startswith_refl].
Qed.

(** On the sample feed, the group of "חדרה". *)
Lemma city_group_is_prefix_matches_sample :
  let city := replace "חדרה - כל האזורים" CITY_ALL_AREAS_SUFFIX "" in
  ∃ city_to_areas city_areas,
    _city_to_areas_map (_backend_areas Sample.metadata)
      (_areas_no_group Sample.metadata) = Ok city_to_areas
    ∧ getitem (city +:+ CITY_ALL_AREAS_SUFFIX) city_to_areas = Some city_areas
    ∧ Sorted String.le city_areas
    ∧ NoDup city_areas
    ∧ (∀ a, a ∈ city_areas ↔
         a ∈ _areas_no_group Sample.metadata ∧ startswith a city = true)
    ∧ (city ∈ _areas_no_group Sample.metadata → city ∈ city_areas).
Proof.
  apply (city_group_is_prefix_matches (_backend_areas Sample.metadata)
           (_areas_no_group Sample.metadata) "חדרה - כל האזורים").
  - apply (bool_decide_unpack _). vm_compute. exact I.
  - vm_compute. reflexivity.
Defined.

(** C4.  When [__init__] returns, [AREAS_AND_GROUPS] is the sorted
    concatenation of the non-group areas, the city-group names and the
    district-group names: it is in ascending order, holds exactly the
    elements of the concatenation with their multiplicities, and repeats
    no name. *)
Theorem areas_and_groups_normalized (up : Upstream) (md : OrefMetadata) :
  __init__ up = Ok md →
  _areas_and_groups md
  = sorted (_areas_no_group md ++ keys (_city_to_areas md)
            ++ keys (_district_to_areas md))%list
  ∧ Sorted String.le (_areas_and_groups md)
  ∧ _areas_and_groups md
    ≡ₚ (_areas_no_group md ++ keys (_city_to_areas md)
        ++ keys (_district_to_areas md))%list
  ∧ NoDup (_areas_and_groups md).
Proof.
  unfold __init__. intros Hinit.
  apply bind_Ok in Hinit as (city_to_areas & _ & Hinit).
  apply bind_Ok in Hinit as (area_to_migun_time & _ & Hinit).
  apply bind_Ok in Hinit as (district_to_areas & _ & Hinit).
  apply bind_Ok in Hinit as (u & Hlen%assert_Ok%bool_decide_eq_true & Hinit).
  apply bind_Ok in Hinit as (area_to_polygon & _ & Hinit).
  apply bind_Ok in Hinit as (area_info & _ & Hinit).
  injection Hinit as <-.
  cbn [_areas_and_groups _areas_no_group _city_to_areas _district_to_areas].
  split_and!; [reflexivity|apply sorted_Sorted|apply sorted_perm|].
  by apply length_size_NoDup.
Qed.

(** The sample feed passes every assertion of [__init__]. *)
Lemma areas_and_groups_normalized_sample :
  _areas_and_groups Sample.metadata
  = sorted (_areas_no_group Sample.metadata
            ++ keys (_city_to_areas Sample.metadata)
            ++ keys (_district_to_areas Sample.metadata))%list
  ∧ Sorted String.le (_areas_and_groups Sample.metadata)
  ∧ _areas_and_groups Sample.metadata
    ≡ₚ (_areas_no_group Sample.metadata
        ++ keys (_city_to_areas Sample.metadata)
        ++ keys (_district_to_areas Sample.metadata))%list
  ∧ NoDup (_areas_and_groups Sample.metadata).
Proof.
  apply (areas_and_groups_normalized Sample.upstream Sample.metadata).
  vm_compute. reflexivity.
Defined.

(** C10.  [_get_area_to_polygon] returns a table whose keys, in order, are
    the cities of the sorted intersection of the tzevaadom cities with the
    non-group areas whose [str(id)] is a key of the polygons document; so
    the keys are in ascending order, a name is a key exactly when it is a
    non-group area, a tzevaadom city and has such a polygon, and each key
    maps to that polygon. *)
Theorem area_to_polygon_is_sorted_intersection
    (tzeva_cities : gmap string TzevaCity.t)
    (tzeva_polygons : gmap string polygon) (areas_no_group : list string) :
  let polygon_of city :=
    tzeva_cities !! city ≫= λ c, tzeva_polygons !! str (TzevaCity.id c) in
  let city_list :=
    sorted (elements (dom tzeva_cities ∩ list_to_set areas_no_group
                      : gset string)) in
  ∃ d, _get_area_to_polygon tzeva_cities tzeva_polygons areas_no_group = Ok d
     ∧ keys d
       = List.filter (λ city, bool_decide (is_Some (polygon_of city))) city_list
     ∧ Sorted String.le (keys d)
     ∧ (∀ city, city ∈ keys d ↔
          city ∈ areas_no_group
          ∧ ∃ c, tzeva_cities !! city = Some c
                 ∧ is_Some (tzeva_polygons !! str (TzevaCity.id c)))
     ∧ (∀ city, city ∈ keys d → getitem city d = polygon_of city).
Proof.
  intros polygon_of city_list.
  assert (Hlist : ∀ city, city ∈ city_list ↔
                    is_Some (tzeva_cities !! city) ∧ city ∈ areas_no_group).
  { intros city. unfold city_list.
    rewrite elem_of_sorted, elem_of_elements, elem_of_intersection.
    by rewrite elem_of_dom, elem_of_list_to_set. }
  assert (Hnd : NoDup city_list) by apply sorted_NoDup, NoDup_elements.
  assert (Hkeys :
    keys (foldl (λ acc x, match polygon_of x with
                          | Some v => setitem x v acc
                          | None => acc
                          end) empty city_list)
    = List.filter (λ city, bool_decide (is_Some (polygon_of city))) city_list)
    by (by apply comprehend_keys_empty).
  eexists. split; [|split_and!].
  - unfold _get_area_to_polygon. fold city_list.
    apply (for_each_pure _ _
             (λ acc x, match polygon_of x with
                       | Some v => setitem x v acc
                       | None => acc
                       end)).
    intros d city [[c Hc] _]%Hlist. unfold polygon_of, table_subscript.
    rewrite Hc. cbn [mbind result_bind option_bind]. unfold table_contains.
    destruct (tzeva_polygons !! str (TzevaCity.id c)) as [p|] eqn:Hp.
    + by rewrite bool_decide_true by (by eexists).
    + rewrite bool_decide_false by (by intros [? ?]). done.
  - done.
  - rewrite Hkeys. apply Sorted_filter, sorted_Sorted.
  - intros city. rewrite Hkeys, list_elem_of_In, filter_In, <-list_elem_of_In.
    rewrite Hlist, bool_decide_eq_true. unfold polygon_of. split.
    + intros [[[c Hc] Hin] Hsome]. rewrite Hc in Hsome. eauto.
    + intros [Hin (c & Hc & Hsome)]. rewrite Hc. eauto.
  - intros city Hcity. rewrite comprehend_getitem.
    rewrite Hkeys in Hcity.
    apply list_elem_of_In, filter_In in Hcity as [Hin Hsome].
    rewrite decide_True by (by apply list_elem_of_In).
    apply bool_decide_eq_true in Hsome as [p Hp]. by rewrite Hp.
Qed.

(** C3.  If no key of [MISSING_CITIES] is a tzevaadom city and every
    non-group area is one or the other, [_get_area_info] returns a table
    with exactly one entry per non-group area: the coordinates and English
    name of the tzevaadom record when the area is a tzevaadom city, and the
    [MISSING_CITIES] entry otherwise. *)
Theorem area_info_total_and_consistent
    (tzeva_cities : gmap string TzevaCity.t) (areas_no_group : list string) :
  dom MISSING_CITIES ∩ dom tzeva_cities = (∅ : gset string) →
  (∀ area, area ∈ areas_no_group →
     is_Some (tzeva_cities !! area) ∨ is_Some (MISSING_CITIES !! area)) →
  ∃ areas, _get_area_info tzeva_cities areas_no_group = Ok areas
     ∧ NoDup (keys areas)
     ∧ (∀ area, area ∈ keys areas ↔ area ∈ areas_no_group)
     ∧ (NoDup areas_no_group → keys areas = areas_no_group)
     ∧ (∀ area c, area ∈ areas_no_group → tzeva_cities !! area = Some c →
          getitem area areas
          = Some {| lat := TzevaCity.lat c; long := TzevaCity.lng c;
                    en := TzevaCity.en c |})
     ∧ (∀ area, area ∈ areas_no_group → tzeva_cities !! area = None →
          is_Some (MISSING_CITIES !! area)
          ∧ getitem area areas = MISSING_CITIES !! area).
Proof.
  intros Hdisjoint Hcover.
  set (info := λ area,
         match tzeva_cities !! area with
         | Some c => Some {| lat := TzevaCity.lat c; long := TzevaCity.lng c;
                             en := TzevaCity.en c |}
         | None => MISSING_CITIES !! area
         end).
  assert (Hinfo : ∀ area, area ∈ areas_no_group → is_Some (info area)).
  { intros area [[c Hc]|Hm]%Hcover; unfold info.
    - rewrite Hc. by eexists.
    - destruct (tzeva_cities !! area); [by eexists|done]. }
  assert (Hget : ∀ area, area ∈ areas_no_group →
    getitem area
      (foldl (λ acc x, match info x with
                       | Some v => setitem x v acc
                       | None => acc
                       end) empty areas_no_group) = info area).
  { intros area Hin. rewrite comprehend_getitem, decide_True by done.
    by destruct (Hinfo area Hin) as [v ->]. }
  eexists. split; [|split_and!].
  - unfold _get_area_info.
    rewrite Hdisjoint, size_empty.
    rewrite (bool_decide_true (0 = 0)%nat) by reflexivity.
    cbn [assert mbind result_bind].
    assert (Hempty : (list_to_set areas_no_group : gset string)
                       ∖ dom tzeva_cities ∖ dom MISSING_CITIES = ∅).
    { apply set_eq. intros area.
      rewrite !elem_of_difference, elem_of_list_to_set, !elem_of_dom.
      split; [|by intros ?%elem_of_empty].
      intros [[Hin Htz] Hm]. by destruct (Hcover area Hin). }
    rewrite Hempty, size_empty.
    rewrite (bool_decide_true (0 = 0)%nat) by reflexivity.
    cbn [assert mbind result_bind].
    apply (for_each_pure _ _
             (λ acc x, match info x with
                       | Some v => setitem x v acc
                       | None => acc
                       end)).
    intros d area Hin. unfold table_contains, table_subscript, info.
    destruct (tzeva_cities !! area) as [c|] eqn:Hc.
    + by rewrite bool_decide_true by (by eexists).
    + rewrite bool_decide_false by (by intros [? ?]).
      destruct (Hcover area Hin) as [[? ?]|[v Hv]]; [congruence|].
      by rewrite Hv.
  - apply comprehend_NoDup. constructor.
  - intros area. rewrite elem_of_keys_getitem, comprehend_getitem.
    destruct (decide (area ∈ areas_no_group)) as [Hin|Hin].
    + destruct (Hinfo area Hin) as [v ->]. split; [done|by eexists].
    + split; [by intros [? ?]|done].
  - intros Hnd. rewrite comprehend_keys_empty by done.
    apply filter_all. intros area Hin. by apply bool_decide_eq_true, Hinfo.
  - intros area c Hin Hc. rewrite Hget by done. unfold info. by rewrite Hc.
  - intros area Hin Hc. rewrite Hget by done. unfold info. rewrite Hc.
    split; [|done]. by destruct (Hcover area Hin) as [[? ?]|?]; [congruence|].
Qed.

(** The sample feed: "אבו גוש" is a tzevaadom city, "גדיש" is listed in
    [MISSING_CITIES]. *)
Lemma area_info_total_and_consistent_sample :
  ∃ areas,
    _get_area_info Sample.cities (_areas_no_group Sample.metadata) = Ok areas
    ∧ NoDup (keys areas)
    ∧ (∀ area, area ∈ keys areas ↔ area ∈ _areas_no_group Sample.metadata)
    ∧ (NoDup (_areas_no_group Sample.metadata) →
       keys areas = _areas_no_group Sample.metadata)
    ∧ (∀ area c, area ∈ _areas_no_group Sample.metadata →
         Sample.cities !! area = Some c →
         getitem area areas
         = Some {| lat := TzevaCity.lat c; long := TzevaCity.lng c;
                   en := TzevaCity.en c |})
    ∧ (∀ area, area ∈ _areas_no_group Sample.metadata →
         Sample.cities !! area = None →
         is_Some (MISSING_CITIES !! area)
         ∧ getitem area areas = MISSING_CITIES !! area).
Proof.
  apply (area_info_total_and_consistent Sample.cities
           (_areas_no_group Sample.metadata)).
  - vm_compute. reflexivity.
  - intros area Hin.
    repeat (apply elem_of_cons in Hin as [->|Hin]);
      [left|right|left|by apply elem_of_nil in Hin];
      vm_compute; eexists; reflexivity.
Defined.

End generator_facts.

(* ================================================================== *)
(** * Properties of the reconciler                                     *)
(* ================================================================== *)

Section reconciler_facts.
Import GeoLocation OrefAlertLocationEventManager.
Context `{Env}.

Local Notation new_entity w area :=
  (OrefAlertLocationEvent.__init__ w area (_alert_date w area)) (only parsing).

(** Construction succeeds exactly on the areas of [AREA_INFO], and the
    entity carries the area as its name. *)
Lemma entity_init_known w area date info :
  AREA_INFO !! area = Some info →
  ∃ e, OrefAlertLocationEvent.__init__ w area date = Ok e
     ∧ _attr_name e = area
     ∧ _attr_latitude e = lat info ∧ _attr_longitude e = long info.
Proof.
  intros Hinfo. unfold OrefAlertLocationEvent.__init__, table_subscript.
  rewrite Hinfo. cbn [mbind result_bind]. eexists. split; [done|]. done.
Qed.

Lemma entity_init_unknown w area date :
  AREA_INFO !! area = None →
  OrefAlertLocationEvent.__init__ w area date = Raise (KeyError area).
Proof.
  intros Hinfo. unfold OrefAlertLocationEvent.__init__, table_subscript.
  by rewrite Hinfo.
Qed.

Lemma entity_init_name w area date e :
  OrefAlertLocationEvent.__init__ w area date = Ok e → _attr_name e = area.
Proof.
  destruct (AREA_INFO !! area) as [info|] eqn:Hinfo.
  - destruct (entity_init_known w area date info Hinfo) as (e' & -> & ? & _).
    by intros [= <-].
  - by rewrite entity_init_unknown.
Qed.

(** The comprehension that builds [to_add]. *)
Lemma to_add_loop w (areas : list string) (acc : gmap string Entity) :
  ∃ to_add,
    for_each areas
      (λ (to_add : gmap string Entity) area,
         if bool_decide (is_Some (AREA_INFO !! area))
         then entity ← new_entity w area; Ok (<[area := entity]> to_add)
         else Ok to_add)
      acc = Ok to_add
    ∧ ∀ area,
        if decide (area ∈ areas ∧ is_Some (AREA_INFO !! area))
        then ∃ e, new_entity w area = Ok e ∧ to_add !! area = Some e
        else to_add !! area = acc !! area.
Proof.
  revert acc. induction areas as [|x xs IH]; intros acc; cbn [for_each].
  - exists acc. split; [done|]. intros area.
    rewrite decide_False; [done|]. by intros [?%elem_of_nil _].
  - destruct (AREA_INFO !! x) as [info|] eqn:Hx.
    + rewrite bool_decide_true by (by eexists).
      destruct (entity_init_known w x (_alert_date w x) info Hx)
        as (e & He & _).
      rewrite He. cbn [mbind result_bind].
      destruct (IH (<[x := e]> acc)) as (to_add & -> & Hspec).
      exists to_add. split; [done|]. intros area. specialize (Hspec area).
      destruct (decide (area ∈ xs ∧ is_Some (AREA_INFO !! area)))
        as [[Hin Hsome]|Hno].
      * rewrite decide_True; [done|]. split; [by right|done].
      * destruct (decide (area = x)) as [->|Hne].
        -- rewrite decide_True by (split; [left|by eexists]).
           exists e. by rewrite Hspec, lookup_insert_eq.
        -- rewrite decide_False.
           ++ by rewrite Hspec, lookup_insert_ne.
           ++ intros [[?|?]%elem_of_cons ?]; [done|]. by apply Hno.
    + rewrite bool_decide_false by (by intros [? ?]).
      cbn [mbind result_bind].
      destruct (IH acc) as (to_add & -> & Hspec).
      exists to_add. split; [done|]. intros area. specialize (Hspec area).
      destruct (decide (area ∈ xs ∧ is_Some (AREA_INFO !! area)))
        as [[Hin Hsome]|Hno].
      * rewrite decide_True; [done|]. split; [by right|done].
      * rewrite decide_False; [done|].
        intros [[->|?]%elem_of_cons [? ?]]; [congruence|].
        apply Hno. split; [done|by eexists].
Qed.

(** What one call of [_async_update] does to every part of the world. *)
Lemma async_update_spec w :
  ∃ to_add w',
    _async_update w = Ok w'
    ∧ _location_events w' = to_add ∪ _location_events w
    ∧ added w' = (added w ++ [(map_to_list to_add).*2])%list
    ∧ tasks w'
      = (tasks w ++
         if bool_decide (size (dom (_location_events w) ∖ active_areas w) ≠ 0)
         then [CleanupEntities (clock w + 10)] else [])%list
    ∧ registry w' = registry w
    ∧ clock w' = clock w
    ∧ active_alerts w' = active_alerts w
    ∧ subscribed w' = subscribed w
    ∧ _config_entry_id w' = _config_entry_id w
    ∧ ∀ area e,
        to_add !! area = Some e ↔
        area ∈ active_areas w ∧ _location_events w !! area = None
        ∧ is_Some (AREA_INFO !! area) ∧ new_entity w area = Ok e.
Proof.
  unfold _async_update.
  destruct (to_add_loop w
              (elements (active_areas w ∖ dom (_location_events w))) ∅)
    as (to_add & -> & Hspec).
  cbn [mbind result_bind].
  assert (Hto_add : ∀ area e,
            to_add !! area = Some e ↔
            area ∈ active_areas w ∧ _location_events w !! area = None
            ∧ is_Some (AREA_INFO !! area) ∧ new_entity w area = Ok e).
  { intros area e. specialize (Hspec area).
    case_decide as Hc;
      rewrite elem_of_elements, elem_of_difference, not_elem_of_dom in Hc.
    - destruct Hspec as (e' & He' & ->). destruct Hc as [[? ?] ?].
      split; [intros [= <-]; done|]. intros (_ & _ & _ & He).
      rewrite He' in He. by injection He as ->.
    - rewrite Hspec, lookup_empty. split; [done|].
      intros (? & ? & ? & _). by destruct Hc. }
  exists to_add. case_bool_decide; eexists; (split; [done|]);
    cbn; rewrite ?app_nil_r; split_and!; done.
Qed.

Lemma elem_of_values (m : gmap string Entity) (e : Entity) :
  e ∈ (map_to_list m).*2 ↔ ∃ area, m !! area = Some e.
Proof.
  rewrite list_elem_of_fmap. split.
  - intros ([area e'] & -> & Hin%elem_of_map_to_list). by exists area.
  - intros [area Hin]. exists (area, e). split; [done|].
    by apply elem_of_map_to_list.
Qed.

(** C1 (as the code has it).  [_async_update] returns, and for every area
    named by an active alert that has no entity in the mapping and that
    [AREA_INFO] lists, a new entity is constructed, stored under the area
    and passed to [async_add_entities]; an area that already has an entity
    keeps that entity, and none of the entities passed on is for it. *)
Theorem update_adds_entity_for_each_new_known_area (w : World) :
  ∃ w' new,
    _async_update w = Ok w'
    ∧ added w' = (added w ++ [new])%list
    ∧ (∀ area,
         area ∈ active_areas w → _location_events w !! area = None →
         is_Some (AREA_INFO !! area) →
         ∃ e, new_entity w area = Ok e
              ∧ _location_events w' !! area = Some e ∧ e ∈ new)
    ∧ (∀ area e,
         _location_events w !! area = Some e →
         _location_events w' !! area = Some e
         ∧ ∀ e', e' ∈ new → _attr_name e' ≠ area).
Proof.
  destruct (async_update_spec w)
    as (to_add & w' & Hupd & Hev & Hadded & _ & _ & _ & _ & _ & _ & Hto_add).
  exists w', (map_to_list to_add).*2. split_and!; [done..| |].
  - intros area Hactive Hnew [info Hinfo].
    destruct (entity_init_known w area (_alert_date w area) info Hinfo)
      as (e & He & _).
    assert (to_add !! area = Some e) as Hin
      by (apply Hto_add; split_and!; [done|done|by eexists|done]).
    exists e. split_and!; [done| |].
    + rewrite Hev. by apply lookup_union_Some_l.
    + apply elem_of_values. by exists area.
  - intros area e Hold. split.
    + rewrite Hev, lookup_union_r; [done|].
      destruct (to_add !! area) as [e'|] eqn:He'; [|done].
      apply Hto_add in He' as (_ & ? & _). congruence.
    + intros e' (area' & Hin)%elem_of_values.
      apply Hto_add in Hin as (_ & Hnone & _ & Hinit).
      apply entity_init_name in Hinit as ->. congruence.
Qed.

(** C8.  An area that [AREA_INFO] does not list never reaches entity
    construction: [_async_update] returns, leaves the mapping at that area
    as it was, and passes on no entity for it, although constructing the
    entity would raise [KeyError]. *)
Theorem update_skips_area_without_metadata (w : World) (area : string) :
  AREA_INFO !! area = None →
  ∃ w' new,
    _async_update w = Ok w'
    ∧ added w' = (added w ++ [new])%list
    ∧ _location_events w' !! area = _location_events w !! area
    ∧ (∀ e, e ∈ new → _attr_name e ≠ area)
    ∧ ∀ date,
        OrefAlertLocationEvent.__init__ w area date = Raise (KeyError area).
Proof.
  intros Hnone.
  destruct (async_update_spec w)
    as (to_add & w' & Hupd & Hev & Hadded & _ & _ & _ & _ & _ & _ & Hto_add).
  exists w', (map_to_list to_add).*2. split_and!; [done..| | |].
  - rewrite Hev, lookup_union_r; [done|].
    destruct (to_add !! area) as [e|] eqn:He; [|done].
    apply Hto_add in He as (_ & _ & [? ?] & _). congruence.
  - intros e (area' & Hin)%elem_of_values.
    apply Hto_add in Hin as (_ & _ & [info Hinfo] & Hinit).
    apply entity_init_name in Hinit as ->. congruence.
  - intros date. by apply entity_init_unknown.
Qed.

(** Every entity in the mapping of a world reached from a constructed
    manager is for an area of [AREA_INFO]. *)
Lemma update_keeps_known (w w' : World) :
  _async_update w = Ok w' →
  (∀ area, is_Some (_location_events w !! area) → is_Some (AREA_INFO !! area)) →
  ∀ area, is_Some (_location_events w' !! area) → is_Some (AREA_INFO !! area).
Proof.
  intros Hupd Hinv area [e He].
  destruct (async_update_spec w)
    as (to_add & w'' & Hupd' & Hev & _ & _ & _ & _ & _ & _ & _ & Hto_add).
  rewrite Hupd in Hupd'. injection Hupd' as <-.
  rewrite Hev in He. apply lookup_union_Some_raw in He as [He|[_ He]].
  - by apply Hto_add in He as (_ & _ & ? & _).
  - apply Hinv. by eexists.
Qed.

(** ** The cleanup *)

Local Notation cleanup_one :=
  (λ w area,
     match _location_events w !! area with
     | Some entity =>
         let w := set_location_events (delete area (_location_events w)) w in
         let w := OrefAlertLocationEvent.async_remove_self entity w in
         set_registry
           (async_remove (OrefAlertLocationEvent.entity_id entity)
              (registry w)) w
     | None => w
     end) (only parsing).

Lemma cleanup_loop_events (areas : list string) (w : World) (area : string) :
  _location_events (foldl cleanup_one w areas) !! area
  = if decide (area ∈ areas) then None else _location_events w !! area.
Proof.
  revert w. induction areas as [|x xs IH]; intros w; cbn [foldl].
  - by rewrite decide_False by apply not_elem_of_nil.
  - rewrite IH.
    assert (Hx : _location_events (cleanup_one w x) !! area
                 = if decide (area = x) then None
                   else _location_events w !! area).
    { cbv beta. destruct (_location_events w !! x) as [e|] eqn:He; cbn.
      - destruct (decide (area = x)) as [->|?].
        + apply lookup_delete_eq.
        + by apply lookup_delete_ne.
      - destruct (decide (area = x)) as [->|?]; done. }
    cbv beta zeta in Hx |- *. rewrite Hx.
    destruct (decide (area ∈ xs)) as [Hin|Hin].
    + by rewrite decide_True by (by right).
    + destruct (decide (area = x)) as [->|Hne].
      * by rewrite decide_True by left.
      * by rewrite decide_False by (by intros [?|?]%elem_of_cons).
Qed.

Lemma cleanup_loop_frame (areas : list string) (w : World) :
  let w' := foldl cleanup_one w areas in
  clock w' = clock w ∧ active_alerts w' = active_alerts w
  ∧ subscribed w' = subscribed w ∧ added w' = added w
  ∧ pending_cleanups w' = pending_cleanups w.
Proof.
  revert w. induction areas as [|x xs IH]; intros w; cbn [foldl]; [done|].
  pose proof (IH (cleanup_one w x)) as IH'. cbv beta zeta in IH' |- *.
  destruct IH' as (-> & -> & -> & -> & ->).
  destruct (_location_events w !! x); [|done]. cbn.
  split_and!; try done.
  unfold pending_cleanups. cbn. rewrite List.filter_app. cbn.
  by rewrite app_nil_r.
Qed.

(** After its sleep the cleanup keeps the entities of the areas active at
    that moment and removes all others. *)
Lemma cleanup_resumed_events (w : World) (area : string) :
  _location_events (_cleanup_entities_resumed w) !! area
  = if decide (area ∈ active_areas w) then _location_events w !! area
    else None.
Proof.
  unfold _cleanup_entities_resumed. rewrite cleanup_loop_events.
  destruct (decide (area ∈ active_areas w)) as [Hin|Hin].
  - rewrite decide_False; [done|].
    rewrite elem_of_elements, elem_of_difference. tauto.
  - destruct (_location_events w !! area) as [e|] eqn:He.
    + rewrite decide_True; [done|].
      rewrite elem_of_elements, elem_of_difference, elem_of_dom.
      split; [by eexists|done].
    + by destruct (decide _).
Qed.

(** C5 (as the code has it).  Every call of [_async_update] that finds a
    mapped area which is not active creates one cleanup task, whatever
    tasks are already pending, and a call that finds none creates none.
    Nothing bounds the number of pending cleanups: once an area is mapped,
    [n] refreshes in a row that report no alert leave [n] more of them
    pending. *)
Theorem each_stale_refresh_schedules_a_cleanup :
  (∀ w, ∃ w',
      _async_update w = Ok w'
      ∧ tasks w'
        = (tasks w ++
           if bool_decide (dom (_location_events w) ⊆ active_areas w)
           then []
           else [CleanupEntities (clock w + 10)])%list)
  ∧ (∀ n w area,
      subscribed w = true →
      is_Some (_location_events w !! area) →
      ∃ w', run w (replicate n (Refresh [])) w'
            ∧ length (pending_cleanups w')
              = (length (pending_cleanups w) + n)%nat).
Proof.
  assert (Hstale : ∀ w,
            size (dom (_location_events w) ∖ active_areas w) ≠ 0
            ↔ ¬ dom (_location_events w) ⊆ active_areas w).
  { intros w. rewrite size_empty_iff. split.
    - intros Hne Hsub. apply Hne. intros x.
      rewrite elem_of_difference. split; [|by intros ?%elem_of_empty].
      intros [Hx Hnx]. destruct Hnx. by apply Hsub.
    - intros Hnsub Hempty. apply Hnsub. intros x Hx.
      destruct (decide (x ∈ active_areas w)) as [|Hnx]; [done|].
      exfalso. apply (not_elem_of_empty (C:=gset string) x), Hempty.
      by apply elem_of_difference. }
  split.
  - intros w.
    destruct (async_update_spec w)
      as (to_add & w' & Hupd & _ & _ & Htasks & _).
    exists w'. split; [done|]. rewrite Htasks.
    destruct (decide (dom (_location_events w) ⊆ active_areas w))
      as [Hsub|Hnsub].
    + rewrite (bool_decide_true (_ ⊆ _)) by done.
      rewrite bool_decide_false; [done|].
      intros Hsize. by apply (proj1 (Hstale w) Hsize).
    + rewrite (bool_decide_false (_ ⊆ _)) by done.
      by rewrite bool_decide_true by exact (proj2 (Hstale w) Hnsub).
  - intros n. induction n as [|n IH]; intros w area Hsub Hmapped.
    + exists w. split; [constructor|]. cbn. lia.
    + destruct (async_update_spec (set_active_alerts [] w))
        as (to_add & w1 & Hupd & Hev & _ & Htasks & _ & _ & _ & Hsub1 & _
            & Hto_add).
      assert (to_add = ∅) as ->.
      { apply map_empty. intros a.
        destruct (to_add !! a) as [e|] eqn:He; [|done].
        apply Hto_add in He as (Hin & _). cbn in Hin.
        by apply elem_of_empty in Hin. }
      rewrite (left_id_L ∅ (∪)) in Hev. cbn in Hev, Hsub1, Htasks.
      rewrite bool_decide_true in Htasks.
      2:{ apply (proj2 (Hstale (set_active_alerts [] w))). intros Hall.
          destruct Hmapped as [e He].
          apply (not_elem_of_empty (C:=gset string) area), Hall.
          apply elem_of_dom. by exists e. }
      destruct (IH w1 area) as (w' & Hrun & Hlen).
      { by rewrite Hsub1. }
      { by rewrite Hev. }
      exists w'. split.
      * eapply run_cons; [|exact Hrun]. by apply step_refresh.
      * rewrite Hlen. unfold pending_cleanups. rewrite Htasks.
        rewrite List.filter_app, length_app. cbn. lia.
Qed.

(** ** The clean start *)

Lemma clean_start_loop (entries : list (string * RegistryEntry))
    (reg : gmap string RegistryEntry) (id : string) :
  foldl (λ reg entry,
           if bool_decide (domain entry.2 = GEO_LOCATION)
           then async_remove entry.1 reg
           else reg)
        reg entries !! id
  = if bool_decide
         (id ∈ (List.filter
                  (λ entry, bool_decide (domain entry.2 = GEO_LOCATION))
                  entries).*1)
    then None
    else reg !! id.
Proof.
  revert reg. induction entries as [|[id' e'] entries IH]; intros reg.
  - cbn [foldl List.filter]. by rewrite bool_decide_false by apply not_elem_of_nil.
  - cbn [foldl List.filter]. rewrite IH. cbn [fst snd].
    set (rest := (List.filter
                    (λ entry, bool_decide (domain entry.2 = GEO_LOCATION))
                    entries).*1).
    destruct (decide (domain e' = GEO_LOCATION)) as [Hdom|Hdom].
    + rewrite !(bool_decide_true (domain e' = GEO_LOCATION)) by done.
      rewrite fmap_cons. cbn [fst]. fold rest.
      destruct (decide (id ∈ rest)) as [Hin|Hin].
      * rewrite (bool_decide_true (id ∈ rest)) by done.
        by rewrite bool_decide_true by (by right).
      * rewrite (bool_decide_false (id ∈ rest)) by done.
        unfold async_remove. destruct (decide (id = id')) as [->|Hne].
        -- rewrite bool_decide_true by left. apply lookup_delete_eq.
        -- rewrite bool_decide_false by (by intros [?|?]%elem_of_cons).
           by apply lookup_delete_ne.
    + by rewrite !(bool_decide_false (domain e' = GEO_LOCATION)) by done.
Qed.

(** C9.  [_async_clean_start] removes from the registry exactly the entries
    of this config entry whose domain is [geo_location]; every other entry
    stays as it was.  [__init__] runs it on an empty mapping before it
    subscribes and before the first update, and that update leaves the
    registry alone. *)
Theorem clean_start_removes_own_geo_location_entries :
  (∀ w id,
      registry (_async_clean_start w) !! id
      = match registry w !! id with
        | Some entry =>
            if bool_decide (config_entry_id entry = Some (_config_entry_id w)
                            ∧ domain entry = GEO_LOCATION)
            then None
            else Some entry
        | None => None
        end)
  ∧ (∀ w entry_id, ∃ w0 w',
       __init__ w entry_id
       = _async_update (async_add_listener (_async_clean_start w0))
       ∧ _location_events w0 = ∅
       ∧ _config_entry_id w0 = entry_id
       ∧ registry w0 = registry w
       ∧ subscribed w0 = subscribed w
       ∧ __init__ w entry_id = Ok w'
       ∧ subscribed w' = true
       ∧ registry w' = registry (_async_clean_start w0)).
Proof.
  split.
  - intros w id. unfold _async_clean_start. cbn [registry set_registry].
    rewrite clean_start_loop.
    assert (Hin : id ∈ (List.filter
                          (λ entry, bool_decide (domain entry.2 = GEO_LOCATION))
                          (async_entries_for_config_entry (registry w)
                             (_config_entry_id w))).*1
                  ↔ ∃ entry, registry w !! id = Some entry
                             ∧ config_entry_id entry = Some (_config_entry_id w)
                             ∧ domain entry = GEO_LOCATION).
    { unfold async_entries_for_config_entry. rewrite list_elem_of_fmap. split.
      - intros ([id' entry] & -> & Hfilter). exists entry.
        apply list_elem_of_In, filter_In in Hfilter as [Hfilter Hdom].
        apply filter_In in Hfilter as [Hreg Hcfg].
        apply list_elem_of_In, elem_of_map_to_list in Hreg.
        apply bool_decide_eq_true in Hdom, Hcfg. done.
      - intros (entry & Hreg & Hcfg & Hdom). exists (id, entry).
        split; [done|]. apply list_elem_of_In, filter_In. split.
        + apply filter_In. split.
          * by apply list_elem_of_In, elem_of_map_to_list.
          * by apply bool_decide_eq_true.
        + by apply bool_decide_eq_true. }
    destruct (registry w !! id) as [entry|] eqn:Hreg.
    + destruct (decide (config_entry_id entry = Some (_config_entry_id w)
                        ∧ domain entry = GEO_LOCATION)) as [Hc|Hc].
      * rewrite (bool_decide_true (_ ∧ _)) by done.
        rewrite bool_decide_true; [done|]. apply Hin. by exists entry.
      * rewrite (bool_decide_false (_ ∧ _)) by done.
        rewrite bool_decide_false; [done|].
        intros (entry' & [= <-] & ? & ?)%Hin. by apply Hc.
    + rewrite bool_decide_false; [done|]. by intros (? & ? & _)%Hin.
  - intros w entry_id.
    set (w0 := {| _location_events := ∅; _config_entry_id := entry_id;
                  subscribed := subscribed w;
                  active_alerts := active_alerts w;
                  registry := registry w; tasks := tasks w; added := added w;
                  clock := clock w; config_latitude := config_latitude w;
                  config_longitude := config_longitude w |}).
    destruct (async_update_spec (async_add_listener (_async_clean_start w0)))
      as (to_add & w' & Hupd & _ & _ & _ & Hreg & _ & _ & Hsub & _).
    exists w0, w'. split_and!; try done.
Qed.

End reconciler_facts.

(** ** The reconciler on the sample host *)

Section reconciler_samples.
Import GeoLocation OrefAlertLocationEventManager.

(** C1, as stated, fails: "אבו גוש" is under alert and has no entity, yet
    the update creates none for it, because [AREA_INFO] does not list it. *)
Lemma unlisted_active_area_gets_no_entity :
  ¬ (∀ area,
       area ∈ active_areas Sample.host_unlisted →
       _location_events Sample.host_unlisted !! area = None →
       ∃ w', _async_update (H := Sample.env) Sample.host_unlisted = Ok w'
             ∧ is_Some (_location_events w' !! area)).
Proof.
  intros Hclaim.
  destruct (Hclaim "אבו גוש") as (w' & Hupd & [e He]).
  - apply elem_of_list_to_set. left.
  - reflexivity.
  - vm_compute in Hupd. injection Hupd as <-. vm_compute in He. discriminate.
Qed.

(** C5, as stated, fails: two refreshes in a row that report no alert
    while "גדיש" is still mapped leave two cleanup tasks pending. *)
Lemma two_cleanups_pending_at_once :
  ¬ (∀ events w,
       run (H := Sample.env) Sample.started events w →
       (length (pending_cleanups w) ≤ 1)%nat).
Proof.
  intros Hclaim.
  assert (∃ w, run (H := Sample.env) Sample.started
                 [Refresh []; Refresh []] w
               ∧ length (pending_cleanups w) = 2) as (w & Hrun & Hlen).
  { eexists. split.
    - eapply run_cons.
      { apply step_refresh; [reflexivity|vm_compute; reflexivity]. }
      eapply run_cons.
      { apply step_refresh; [reflexivity|vm_compute; reflexivity]. }
      apply run_nil.
    - vm_compute. reflexivity. }
  specialize (Hclaim _ _ Hrun). lia.
Qed.

(** On the sample host the update skips "אבו גוש". *)
Lemma update_skips_area_without_metadata_sample :
  ∃ w' new,
    _async_update (H := Sample.env) Sample.host_unlisted = Ok w'
    ∧ added w' = (added Sample.host_unlisted ++ [new])%list
    ∧ _location_events w' !! "אבו גוש"
      = _location_events Sample.host_unlisted !! "אבו גוש"
    ∧ (∀ e, e ∈ new → _attr_name e ≠ "אבו גוש")
    ∧ ∀ date,
        OrefAlertLocationEvent.__init__ (H := Sample.env)
          Sample.host_unlisted "אבו גוש" date
        = Raise (KeyError "אבו גוש").
Proof.
  apply (update_skips_area_without_metadata (H := Sample.env)
           Sample.host_unlisted "אבו גוש").
  vm_compute. reflexivity.
Defined.

End reconciler_samples.

(* ================================================================== *)
(** * Further properties of the metadata generator                     *)
(* ================================================================== *)

Section replace_facts.
Import PyStr.

Lemma app_empty_r (s : string) : s +:+ "" = s.
Proof. induction s as [|a s IH]; [done|]. by rewrite app_cons, IH. Qed.

Lemma app_assoc' (s1 s2 s3 : string) : (s1 +:+ s2) +:+ s3 = s1 +:+ (s2 +:+ s3).
Proof. induction s1 as [|a s1 IH]; [done|]. by rewrite !app_cons, IH. Qed.

Lemma startswith_app (p s : string) : startswith (p +:+ s) p = true.
Proof. apply startswith_spec. by exists s. Qed.

(** Skipping the rest of a matched occurrence. *)
Lemma replace_scan_skip (old new p s : string) :
  replace_scan old new (String.length p) (p +:+ s) = replace_scan old new 0 s.
Proof.
  induction p as [|a p IH]; [by destruct s|]. by rewrite app_cons.
Qed.

(** The scan up to the first position at which [old] matches. *)
Lemma replace_scan_first (old new c s : string) :
  old ≠ "" →
  (∀ n, (n < String.length c)%nat →
        startswith (drop n (c +:+ old +:+ s)) old = false) →
  replace_scan old new 0 (c +:+ old +:+ s)
  = c +:+ new +:+ replace_scan old new 0 s.
Proof.
  intros Hold. induction c as [|a c IH]; intros Hfirst.
  - rewrite !app_empty_l. destruct old as [|b old]; [done|].
    rewrite app_cons. cbn [replace_scan].
    rewrite <-app_cons, startswith_app.
    replace (String.length (String b old) - 1)%nat with (String.length old)
      by (cbn [String.length]; lia).
    by rewrite replace_scan_skip.
  - rewrite !app_cons. cbn [replace_scan].
    specialize (Hfirst 0) as H0. cbn [String.length drop] in H0.
    rewrite app_cons in H0. rewrite H0 by lia. f_equal. apply IH.
    intros n Hn. specialize (Hfirst (S n)). rewrite app_cons in Hfirst.
    apply Hfirst. cbn [String.length]. lia.
Qed.

(** A string in which [old] matches nowhere is left as it is. *)
Lemma replace_scan_absent (old new s : string) :
  (∀ n, (n < String.length s)%nat → startswith (drop n s) old = false) →
  replace_scan old new 0 s = s.
Proof.
  induction s as [|a s IH]; intros Habsent; [done|].
  cbn [replace_scan]. specialize (Habsent 0) as H0.
  cbn [String.length drop] in H0. rewrite H0 by lia. f_equal. apply IH.
  intros n Hn. apply (Habsent (S n)). cbn [String.length]. lia.
Qed.

Lemma replace_first (old new c : string) :
  old ≠ "" →
  (∀ n, (n < String.length c)%nat →
        startswith (drop n (c +:+ old)) old = false) →
  replace (c +:+ old) old new = c +:+ new.
Proof.
  intros Hold Hfirst. unfold replace. destruct old as [|b old]; [done|].
  rewrite <-(app_empty_r (String b old)) at 2.
  rewrite replace_scan_first; [by rewrite app_empty_r|done|].
  by rewrite app_empty_r.
Qed.

Lemma replace_absent (old new s : string) :
  old ≠ "" →
  (∀ n, (n < String.length s)%nat → startswith (drop n s) old = false) →
  replace s old new = s.
Proof.
  intros Hold Habsent. unfold replace. destruct old; [done|].
  by apply replace_scan_absent.
Qed.

End replace_facts.

Section generator_extras.
Import PyStr PyDict Generator.

Local Notation repaired area :=
  (replace (CityMix.label_he area)
     CITY_ALL_AREAS_SUFFIX_TYPO CITY_ALL_AREAS_SUFFIX) (only parsing).

(** The areas a city group holds. *)
Local Notation areas_of areas_no_group city :=
  (sorted (list_of_set
             (List.filter (λ a, startswith a city) areas_no_group)))
  (only parsing).

(** When the keys a loop assigns are pairwise different, they stay in the
    order of the loop. *)
Lemma assign_all_keys_NoDup {A V} (key : A → string) (val : A → V)
    (xs : list A) :
  NoDup (key <$> xs) →
  keys (foldl (λ acc x, setitem (key x) (val x) acc) empty xs) = key <$> xs.
Proof.
  induction xs as [|x xs IH] using rev_ind; intros Hnd; [done|].
  rewrite fmap_app in Hnd. apply NoDup_app in Hnd as (Hxs & Hx & _).
  rewrite foldl_app. cbn [foldl]. rewrite keys_setitem, IH by done.
  rewrite decide_False; [by rewrite fmap_app|].
  intros Hin. apply (Hx _ Hin). cbn. left.
Qed.

(** The last assignment to a key is the one that stays. *)
Lemma assign_all_last {A V} (key : A → string) (val : A → V)
    (before after : list A) (x : A) :
  (∀ y, y ∈ after → key y ≠ key x) →
  getitem (key x)
    (foldl (λ acc x, setitem (key x) (val x) acc) empty
       (before ++ x :: after))
  = Some (val x).
Proof.
  induction after as [|y after IH] using rev_ind; intros Hafter.
  - rewrite foldl_app. cbn [foldl]. rewrite getitem_setitem.
    by rewrite decide_True.
  - rewrite app_comm_cons, app_assoc, foldl_app. cbn [foldl].
    rewrite getitem_setitem, decide_False.
    + apply IH. intros z Hz. apply Hafter. rewrite elem_of_app. by left.
    + intros Heq. apply (Hafter y); [|done].
      rewrite elem_of_app, list_elem_of_singleton. by right.
Qed.

Lemma city_to_areas_map_eq (backend_areas areas_no_group : list string) :
  _city_to_areas_map backend_areas areas_no_group
  = Ok (foldl (λ d c, setitem (c +:+ CITY_ALL_AREAS_SUFFIX)
                        (areas_of areas_no_group c) d)
          empty (_get_cities_with_all_areas backend_areas)).
Proof.
  unfold _city_to_areas_map. apply for_each_pure. intros d c _.
  rewrite (for_each_pure _ _
             (λ acc a, if startswith a c then (acc ++ [a])%list else acc)).
  - rewrite (foldl_append_if (λ a, startswith a c) (λ a, a)).
    by rewrite map_id.
  - intros acc a Ha. destruct (startswith a c); [|done].
    unfold list_contains. by rewrite bool_decide_true.
Qed.

Lemma elem_of_cities_with_all_areas (backend_areas : list string) city :
  city ∈ _get_cities_with_all_areas backend_areas ↔
  ∃ area, area ∈ backend_areas
          ∧ endswith area CITY_ALL_AREAS_SUFFIX = true
          ∧ city = replace area CITY_ALL_AREAS_SUFFIX "".
Proof.
  unfold _get_cities_with_all_areas.
  rewrite elem_of_sorted, list_elem_of_In, in_map_iff. split.
  - intros (area & <- & [Hin Hend]%filter_In). exists area.
    by rewrite list_elem_of_In.
  - intros (area & Hin & Hend & ->). exists area. split; [done|].
    apply filter_In. by rewrite <-list_elem_of_In.
Qed.

(** X1.  [_get_areas] returns the repaired labels of the feed in ascending
    order and without repetition, however often and in whatever order the
    feed lists them. *)
Theorem backend_areas_sorted_distinct (cities_mix : list CityMix.t) :
  Sorted String.le (_get_areas cities_mix)
  ∧ NoDup (_get_areas cities_mix)
  ∧ (∀ x, x ∈ _get_areas cities_mix ↔
          ∃ area, area ∈ cities_mix ∧ repaired area = x)
  ∧ (∀ other, other ≡ₚ cities_mix → _get_areas other = _get_areas cities_mix).
Proof.
  split_and!.
  - apply sorted_Sorted.
  - apply sorted_NoDup, NoDup_list_of_set.
  - apply elem_of_get_areas.
  - intros other Hperm. unfold _get_areas. apply sorted_proper.
    apply NoDup_Permutation; [apply NoDup_list_of_set..|].
    intros x. rewrite !elem_of_list_of_set. by rewrite Hperm.
Qed.

(** X2.  [_city_to_areas_map] never raises: the assertion in its inner
    loop always holds.  Its table has one key per city that has an
    all-areas entry, each key ends with the all-areas suffix, and each
    value is a sorted, duplicate-free list of non-group areas. *)
Theorem city_to_areas_map_total (backend_areas areas_no_group : list string) :
  ∃ city_to_areas,
    _city_to_areas_map backend_areas areas_no_group = Ok city_to_areas
    ∧ NoDup (keys city_to_areas)
    ∧ (∀ k, k ∈ keys city_to_areas ↔
            ∃ area, area ∈ backend_areas
                    ∧ endswith area CITY_ALL_AREAS_SUFFIX = true
                    ∧ k = replace area CITY_ALL_AREAS_SUFFIX ""
                            +:+ CITY_ALL_AREAS_SUFFIX)
    ∧ (∀ k, k ∈ keys city_to_areas →
            endswith k CITY_ALL_AREAS_SUFFIX = true)
    ∧ (∀ k city_areas,
         getitem k city_to_areas = Some city_areas →
         Sorted String.le city_areas ∧ NoDup city_areas
         ∧ ∀ a, a ∈ city_areas → a ∈ areas_no_group).
Proof.
  eexists. split; [apply city_to_areas_map_eq|].
  set (key := λ c : string, c +:+ CITY_ALL_AREAS_SUFFIX).
  set (val := λ c : string, areas_of areas_no_group c).
  assert (Hkeys : ∀ k,
            k ∈ keys (foldl (λ d c, setitem (key c) (val c) d) empty
                        (_get_cities_with_all_areas backend_areas)) ↔
            ∃ area, area ∈ backend_areas
                    ∧ endswith area CITY_ALL_AREAS_SUFFIX = true
                    ∧ k = replace area CITY_ALL_AREAS_SUFFIX ""
                            +:+ CITY_ALL_AREAS_SUFFIX).
  { intros k. rewrite (assign_all_keys key val), list_elem_of_fmap. split.
    - intros [?%elem_of_nil|(c & -> & Hc)]; [done|].
      apply elem_of_cities_with_all_areas in Hc as (area & ? & ? & ->).
      by exists area.
    - intros (area & ? & ? & ->). right.
      exists (replace area CITY_ALL_AREAS_SUFFIX ""). split; [done|].
      apply elem_of_cities_with_all_areas. by exists area. }
  split_and!.
  - apply (assign_all_NoDup key val). constructor.
  - exact Hkeys.
  - intros k (area & _ & _ & ->)%Hkeys. apply endswith_spec. by eexists.
  - intros k city_areas (c & _ & _ & <-)%(assign_all_getitem key val).
    unfold val. split_and!.
    + apply sorted_Sorted.
    + apply sorted_NoDup, NoDup_list_of_set.
    + intros a.
      rewrite elem_of_sorted, elem_of_list_of_set, list_elem_of_In, filter_In.
      rewrite <-list_elem_of_In. tauto.
Qed.

(** X3.  A backend area made of a city name followed by the all-areas
    suffix, with no earlier match of the suffix, is itself a key of the
    city-group table, and its value lists the non-group areas that start
    with the city name. *)
Theorem city_group_key_is_area_name
    (backend_areas areas_no_group : list string) (city : string) :
  city +:+ CITY_ALL_AREAS_SUFFIX ∈ backend_areas →
  (∀ n, (n < String.length city)%nat →
        startswith (drop n (city +:+ CITY_ALL_AREAS_SUFFIX))
          CITY_ALL_AREAS_SUFFIX = false) →
  ∃ city_to_areas city_areas,
    _city_to_areas_map backend_areas areas_no_group = Ok city_to_areas
    ∧ getitem (city +:+ CITY_ALL_AREAS_SUFFIX) city_to_areas = Some city_areas
    ∧ ∀ a, a ∈ city_areas ↔ a ∈ areas_no_group ∧ startswith a city = true.
Proof.
  intros Hin Hfirst.
  assert (Hcity : replace (city +:+ CITY_ALL_AREAS_SUFFIX)
                    CITY_ALL_AREAS_SUFFIX "" = city).
  { rewrite replace_first; [apply app_empty_r|done|done]. }
  eexists. exists (areas_of areas_no_group city). split_and!.
  - apply city_to_areas_map_eq.
  - apply (assign_all_getitem_inj (λ c, c +:+ CITY_ALL_AREAS_SUFFIX)
             (λ c, areas_of areas_no_group c)); [apply app_inj_suffix|].
    apply elem_of_cities_with_all_areas.
    exists (city +:+ CITY_ALL_AREAS_SUFFIX). split_and!; [done| |done].
    apply endswith_spec. by eexists.
  - intros a.
    rewrite elem_of_sorted, elem_of_list_of_set, list_elem_of_In, filter_In.
    by rewrite list_elem_of_In.
Qed.

(** On the sample feed "חדרה - כל האזורים" is such an area. *)
Lemma city_group_key_is_area_name_sample :
  ∃ city_to_areas city_areas,
    _city_to_areas_map (_backend_areas Sample.metadata)
      (_areas_no_group Sample.metadata) = Ok city_to_areas
    ∧ getitem ("חדרה" +:+ CITY_ALL_AREAS_SUFFIX) city_to_areas
      = Some city_areas
    ∧ ∀ a, a ∈ city_areas ↔
           a ∈ _areas_no_group Sample.metadata ∧ startswith a "חדרה" = true.
Proof.
  apply (city_group_key_is_area_name (_backend_areas Sample.metadata)
           (_areas_no_group Sample.metadata) "חדרה").
  - apply (bool_decide_unpack _). vm_compute. exact I.
  - intros n Hn. do 8 (destruct n as [|n]; [reflexivity|]).
    cbn in Hn. lia.
Defined.

Lemma area_to_migun_time_map_eq (cities_mix : list CityMix.t) :
  let migun_time :=
    foldl (λ d area, setitem (repaired area) (int (CityMix.migun_time area)) d)
          empty cities_mix in
  ∃ d, _area_to_migun_time_map cities_mix = Ok d
     ∧ ∀ k, getitem k d = getitem k migun_time.
Proof.
  intros M. unfold _area_to_migun_time_map. fold M.
  rewrite (for_each_pure _ _
             (λ d area, match getitem area M with
                        | Some v => setitem area v d
                        | None => d
                        end)).
  2:{ intros d area Hin. rewrite elem_of_sorted in Hin.
      apply elem_of_keys_getitem in Hin as [v Hv].
      unfold subscript. by rewrite Hv. }
  eexists. split; [done|]. intros k. rewrite comprehend_getitem.
  destruct (decide (k ∈ sorted (keys M))) as [Hin|Hin].
  - by destruct (getitem k M).
  - rewrite elem_of_sorted, elem_of_keys_getitem in Hin.
    destruct (getitem k M); [|done]. destruct Hin. by eexists.
Qed.

(** X4.  A record whose label is a city name followed by the mistyped
    suffix, with no earlier match of the typo, enters the backend areas
    under the city name followed by the canonical suffix, and so counts as
    a city group, not as a plain area. *)
Theorem mistyped_label_becomes_city_group
    (cities_mix : list CityMix.t) (area : CityMix.t) (city : string) :
  area ∈ cities_mix →
  CityMix.label_he area = city +:+ CITY_ALL_AREAS_SUFFIX_TYPO →
  (∀ n, (n < String.length city)%nat →
        startswith (drop n (city +:+ CITY_ALL_AREAS_SUFFIX_TYPO))
          CITY_ALL_AREAS_SUFFIX_TYPO = false) →
  city +:+ CITY_ALL_AREAS_SUFFIX ∈ _get_areas cities_mix
  ∧ city +:+ CITY_ALL_AREAS_SUFFIX
    ∉ List.filter (λ a, negb (endswith a CITY_ALL_AREAS_SUFFIX))
        (_get_areas cities_mix).
Proof.
  intros Hin Hlabel Hfirst. split.
  - apply elem_of_get_areas. exists area. split; [done|].
    rewrite Hlabel. by apply replace_first.
  - intros [_ Hend]%list_elem_of_In%filter_In.
    apply negb_true_iff in Hend.
    assert (endswith (city +:+ CITY_ALL_AREAS_SUFFIX) CITY_ALL_AREAS_SUFFIX
            = true) as Htrue by (apply endswith_spec; by eexists).
    congruence.
Qed.

(** The mistyped "Hadera all areas" of the sample feed. *)
Lemma mistyped_label_becomes_city_group_sample :
  "חדרה" +:+ CITY_ALL_AREAS_SUFFIX ∈ _get_areas Sample.mix
  ∧ "חדרה" +:+ CITY_ALL_AREAS_SUFFIX
    ∉ List.filter (λ a, negb (endswith a CITY_ALL_AREAS_SUFFIX))
        (_get_areas Sample.mix).
Proof.
  apply (mistyped_label_becomes_city_group Sample.mix
           {| CityMix.label_he := "חדרה כל - האזורים";
              CityMix.migun_time := 90 |} "חדרה").
  - left.
  - reflexivity.
  - intros n Hn. do 8 (destruct n as [|n]; [reflexivity|]).
    cbn in Hn. lia.
Defined.

(** X5.  A label in which the typo matches nowhere is a backend area as it
    stands. *)
Theorem label_without_typo_is_kept
    (cities_mix : list CityMix.t) (area : CityMix.t) :
  area ∈ cities_mix →
  (∀ n, (n < String.length (CityMix.label_he area))%nat →
        startswith (drop n (CityMix.label_he area))
          CITY_ALL_AREAS_SUFFIX_TYPO = false) →
  CityMix.label_he area ∈ _get_areas cities_mix.
Proof.
  intros Hin Habsent. apply elem_of_get_areas. exists area.
  split; [done|]. by apply replace_absent.
Qed.

Lemma label_without_typo_is_kept_sample : "גדיש" ∈ _get_areas Sample.mix.
Proof.
  apply (label_without_typo_is_kept Sample.mix
           {| CityMix.label_he := "גדיש"; CityMix.migun_time := 60 |}).
  - do 2 right. left.
  - intros n Hn. do 8 (destruct n as [|n]; [reflexivity|]).
    cbn in Hn. lia.
Defined.

(** X6.  When several records of the feed repair to the same label, the
    shelter time of the last of them is the one the table keeps. *)
Theorem migun_time_of_last_record_wins
    (before after : list CityMix.t) (area : CityMix.t) :
  (∀ later, later ∈ after → repaired later ≠ repaired area) →
  ∃ d, _area_to_migun_time_map (before ++ area :: after) = Ok d
     ∧ getitem (repaired area) d = Some (int (CityMix.migun_time area)).
Proof.
  intros Hafter.
  destruct (area_to_migun_time_map_eq (before ++ area :: after))
    as (d & Hd & Hget).
  exists d. split; [done|]. rewrite Hget.
  by apply (assign_all_last (λ a, repaired a)
              (λ a, int (CityMix.migun_time a))).
Qed.

(** A feed that lists "גדיש" with 30 and then with 60 seconds. *)
Lemma migun_time_of_last_record_wins_sample :
  ∃ d, _area_to_migun_time_map Sample.mix_repeated = Ok d
     ∧ getitem "גדיש" d = Some 60%Z.
Proof.
  apply (migun_time_of_last_record_wins
           [{| CityMix.label_he := "גדיש"; CityMix.migun_time := 30 |}]
           [{| CityMix.label_he := "אבו גוש"; CityMix.migun_time := 90 |}]
           {| CityMix.label_he := "גדיש"; CityMix.migun_time := 60 |}).
  intros later ->%list_elem_of_singleton. vm_compute. discriminate.
Defined.

(** A common prefix does not change the order of two strings. *)
Lemma compare_app_prefix (p a b : string) :
  String.compare (p +:+ a) (p +:+ b) = String.compare a b.
Proof.
  induction p as [|c p IH]; [done|]. rewrite !app_cons. cbn [String.compare].
  unfold Ascii.compare. by rewrite N.compare_refl.
Qed.

Lemma le_app_prefix (p a b : string) :
  String.le a b → String.le (p +:+ a) (p +:+ b).
Proof. unfold String.le, String.leb. by rewrite compare_app_prefix. Qed.

(** The areas a district holds. *)
Local Notation district_areas_of districts areas_no_group name :=
  (sorted
     (list_of_set
        (map District.label_he
           (List.filter
              (λ area, bool_decide (District.areaname area = name)
                       && list_contains (District.label_he area)
                            areas_no_group)
              districts)))) (only parsing).

Lemma district_to_areas_map_eq (fetched : list District.t)
    (areas_no_group : list string) (city_to_areas : dict (list string)) :
  (∀ a, a ∈ areas_no_group → a ∉ keys city_to_areas) →
  _district_to_areas_map fetched areas_no_group city_to_areas
  = Ok (foldl
          (λ d name,
             setitem (DISTRICT_PREFIX +:+ name)
               (district_areas_of (_get_districts fetched) areas_no_group name)
               d)
          empty
          (sorted (list_of_set
                     (map District.areaname (_get_districts fetched))))).
Proof.
  intros Hdisjoint. unfold _district_to_areas_map.
  apply for_each_pure. intros d name _.
  rewrite (for_each_pure _ _
             (λ acc area,
                if bool_decide (District.areaname area = name)
                   && list_contains (District.label_he area) areas_no_group
                then (acc ++ [District.label_he area])%list else acc)).
  - by rewrite (foldl_append_if
                  (λ area, bool_decide (District.areaname area = name)
                           && list_contains (District.label_he area)
                                areas_no_group)
                  District.label_he).
  - intros acc area _.
    destruct (bool_decide (District.areaname area = name)); [|done].
    cbn [andb]. unfold list_contains. case_bool_decide as Hin; [|done].
    unfold contains. by rewrite bool_decide_false by (by apply Hdisjoint).
Qed.

(** X7.  When no non-group area is a city-group name,
    [_district_to_areas_map] never raises.  Its keys are the district names
    of the records [_get_districts] keeps, each behind the district prefix,
    in ascending order and without repetition; the value of a district is
    the sorted, duplicate-free list of the non-group areas its records
    name. *)
Theorem district_table_spec (fetched : list District.t)
    (areas_no_group : list string) (city_to_areas : dict (list string)) :
  (∀ a, a ∈ areas_no_group → a ∉ keys city_to_areas) →
  ∃ d, _district_to_areas_map fetched areas_no_group city_to_areas = Ok d
     ∧ Sorted String.le (keys d)
     ∧ NoDup (keys d)
     ∧ (∀ k, k ∈ keys d ↔
             ∃ r, r ∈ _get_districts fetched
                  ∧ k = DISTRICT_PREFIX +:+ District.areaname r)
     ∧ (∀ name areas,
          getitem (DISTRICT_PREFIX +:+ name) d = Some areas →
          Sorted String.le areas ∧ NoDup areas
          ∧ ∀ a, a ∈ areas ↔
                 a ∈ areas_no_group
                 ∧ ∃ r, r ∈ _get_districts fetched
                        ∧ District.areaname r = name
                        ∧ District.label_he r = a).
Proof.
  intros Hdisjoint.
  pose (names := sorted (list_of_set
                           (map District.areaname (_get_districts fetched)))).
  pose (key := λ name : string, DISTRICT_PREFIX +:+ name).
  pose (val := λ name : string,
          district_areas_of (_get_districts fetched) areas_no_group name).
  exists (foldl (λ d name, setitem (key name) (val name) d) empty names).
  split; [by apply district_to_areas_map_eq|].
  assert (Hnames : NoDup names) by apply sorted_NoDup, NoDup_list_of_set.
  assert (Hkeys : keys (foldl (λ d name, setitem (key name) (val name) d)
                          empty names) = key <$> names).
  { apply assign_all_keys_NoDup. apply NoDup_fmap_2; [|done].
    unfold key. apply String.app_inj. }
  split_and!.
  - rewrite Hkeys. apply (Sorted_fmap key String.le String.le).
    + intros a b. apply le_app_prefix.
    + apply sorted_Sorted.
  - rewrite Hkeys. apply NoDup_fmap_2; [apply String.app_inj|done].
  - intros k. rewrite Hkeys, list_elem_of_fmap. unfold names. split.
    + intros (name & -> & Hin).
      rewrite elem_of_sorted, elem_of_list_of_set in Hin.
      apply list_elem_of_In, in_map_iff in Hin as (r & <- & Hr).
      exists r. by rewrite list_elem_of_In.
    + intros (r & Hr & ->). exists (District.areaname r). split; [done|].
      rewrite elem_of_sorted, elem_of_list_of_set.
      apply list_elem_of_In, in_map_iff. exists r.
      by rewrite <-list_elem_of_In.
  - intros name areas (name' & _ & Hname & <-)%(assign_all_getitem key val).
    apply (inj (String.app DISTRICT_PREFIX)) in Hname as ->.
    unfold val. split_and!.
    + apply sorted_Sorted.
    + apply sorted_NoDup, NoDup_list_of_set.
    + intros a. rewrite elem_of_sorted, elem_of_list_of_set.
      rewrite list_elem_of_In, in_map_iff. split.
      * intros (r & <- & [Hr Hcond]%filter_In).
        apply andb_true_iff in Hcond as [Hn Hl].
        apply bool_decide_eq_true in Hn, Hl. split; [done|].
        exists r. by rewrite list_elem_of_In.
      * intros [Ha (r & Hr & Hn & Hl)]. exists r. split; [done|].
        apply filter_In. split; [by apply list_elem_of_In|].
        apply andb_true_iff. unfold list_contains.
        rewrite !bool_decide_eq_true. by rewrite Hl.
Qed.

(** The district table of the sample feed. *)
Lemma district_table_spec_sample :
  ∃ d, _district_to_areas_map (districts Sample.upstream)
         (_areas_no_group Sample.metadata)
         (_city_to_areas Sample.metadata) = Ok d
     ∧ Sorted String.le (keys d)
     ∧ NoDup (keys d)
     ∧ (∀ k, k ∈ keys d ↔
             ∃ r, r ∈ _get_districts (districts Sample.upstream)
                  ∧ k = DISTRICT_PREFIX +:+ District.areaname r)
     ∧ (∀ name areas,
          getitem (DISTRICT_PREFIX +:+ name) d = Some areas →
          Sorted String.le areas ∧ NoDup areas
          ∧ ∀ a, a ∈ areas ↔
                 a ∈ _areas_no_group Sample.metadata
                 ∧ ∃ r, r ∈ _get_districts (districts Sample.upstream)
                        ∧ District.areaname r = name
                        ∧ District.label_he r = a).
Proof.
  apply (district_table_spec (districts Sample.upstream)
           (_areas_no_group Sample.metadata)
           (_city_to_areas Sample.metadata)).
  intros a Ha.
  repeat (apply elem_of_cons in Ha as [->|Ha]);
    [..|by apply elem_of_nil in Ha];
    apply (bool_decide_unpack _); vm_compute; exact I.
Defined.

(** The two conditions [_get_area_info] asserts. *)
Local Notation area_info_conditions tzeva_cities areas_no_group :=
  (dom MISSING_CITIES ∩ dom tzeva_cities = (∅ : gset string)
   ∧ ∀ area, area ∈ areas_no_group →
       is_Some (tzeva_cities !! area) ∨ is_Some (MISSING_CITIES !! area))
  (only parsing).

Lemma size_zero_empty (X : gset string) : size X = 0 ↔ X = ∅.
Proof.
  split; [|by intros ->].
  intros Hsize. by apply leibniz_equiv, size_empty_iff.
Qed.

Lemma area_info_outcome (tzeva_cities : gmap string TzevaCity.t)
    (areas_no_group : list string) :
  (area_info_conditions tzeva_cities areas_no_group
   ∧ ∃ areas, _get_area_info tzeva_cities areas_no_group = Ok areas)
  ∨ (¬ area_info_conditions tzeva_cities areas_no_group
     ∧ _get_area_info tzeva_cities areas_no_group = Raise AssertionError).
Proof.
  unfold _get_area_info.
  destruct (decide (dom MISSING_CITIES ∩ dom tzeva_cities = (∅ : gset string)))
    as [Hdisjoint|Hoverlap].
  2:{ right. split; [by intros [? _]|].
      rewrite (bool_decide_false
                 (size (dom MISSING_CITIES ∩ dom tzeva_cities) = 0)); [done|].
      by intros ?%size_zero_empty. }
  rewrite (bool_decide_true
             (size (dom MISSING_CITIES ∩ dom tzeva_cities) = 0))
    by (by apply size_zero_empty).
  cbn [assert mbind result_bind].
  destruct (decide ((list_to_set areas_no_group : gset string)
                      ∖ dom tzeva_cities ∖ dom MISSING_CITIES = ∅))
    as [Hcovered|Huncovered].
  2:{ right. split.
      - intros [_ Hcover]. apply Huncovered, set_eq. intros area.
        rewrite !elem_of_difference, elem_of_list_to_set, !elem_of_dom.
        split; [|by intros ?%elem_of_empty].
        intros [[Hin Htz] Hm]. by destruct (Hcover area Hin).
      - rewrite bool_decide_false; [done|]. by intros ?%size_zero_empty. }
  rewrite bool_decide_true by (by apply size_zero_empty).
  cbn [assert mbind result_bind].
  assert (Hcover : ∀ area, area ∈ areas_no_group →
            is_Some (tzeva_cities !! area) ∨ is_Some (MISSING_CITIES !! area)).
  { intros area Hin.
    destruct (tzeva_cities !! area) as [c|] eqn:Hc; [left; by eexists|].
    destruct (MISSING_CITIES !! area) as [info|] eqn:Hm; [right; by eexists|].
    exfalso. apply (not_elem_of_empty (C:=gset string) area).
    rewrite <-Hcovered, !elem_of_difference, elem_of_list_to_set.
    by rewrite !not_elem_of_dom. }
  left. split; [done|].
  pose (info := λ area,
          match tzeva_cities !! area with
          | Some c => Some {| lat := TzevaCity.lat c; long := TzevaCity.lng c;
                              en := TzevaCity.en c |}
          | None => MISSING_CITIES !! area
          end).
  eexists.
  apply (for_each_pure _ _
           (λ acc x, match info x with
                     | Some v => setitem x v acc
                     | None => acc
                     end)).
  intros d area Hin. unfold table_contains, table_subscript, info.
  destruct (tzeva_cities !! area) as [c|] eqn:Hc.
  - by rewrite bool_decide_true by (by eexists).
  - rewrite bool_decide_false by (by intros [? ?]).
    destruct (Hcover area Hin) as [[? ?]|[v Hv]]; [congruence|].
    by rewrite Hv.
Qed.

(** X8.  [_get_area_info] fails only through its assertions: when a key
    of [MISSING_CITIES] is also a tzevaadom city, or some non-group area
    is in neither table, it raises [AssertionError] and never reaches the
    [MISSING_CITIES] lookup that would raise [KeyError]. *)
Theorem area_info_failure_is_assertion
    (tzeva_cities : gmap string TzevaCity.t) (areas_no_group : list string) :
  dom MISSING_CITIES ∩ dom tzeva_cities ≠ (∅ : gset string)
  ∨ (∃ area, area ∈ areas_no_group
             ∧ tzeva_cities !! area = None
             ∧ MISSING_CITIES !! area = None) →
  _get_area_info tzeva_cities areas_no_group = Raise AssertionError.
Proof.
  intros Hbad.
  destruct (area_info_outcome tzeva_cities areas_no_group)
    as [[[Hdisjoint Hcover] _]|[_ Hraise]]; [|done].
  destruct Hbad as [Hoverlap|(area & Hin & Htz & Hm)]; [done|].
  destruct (Hcover area Hin) as [[? ?]|[? ?]]; congruence.
Qed.

(** Without any tzevaadom city, "אבו גוש" is in neither table. *)
Lemma area_info_failure_is_assertion_sample :
  _get_area_info ∅ ["אבו גוש"; "גדיש"] = Raise AssertionError.
Proof.
  apply (area_info_failure_is_assertion ∅ ["אבו גוש"; "גדיש"]).
  right. exists "אבו גוש". split_and!; [left|reflexivity|reflexivity].
Defined.

Lemma area_to_polygon_total (tzeva_cities : gmap string TzevaCity.t)
    (tzeva_polygons : gmap string polygon) (areas_no_group : list string) :
  ∃ d, _get_area_to_polygon tzeva_cities tzeva_polygons areas_no_group = Ok d.
Proof.
  pose (polygon_of := λ city,
          tzeva_cities !! city
          ≫= λ c, tzeva_polygons !! str (TzevaCity.id c)).
  eexists. unfold _get_area_to_polygon.
  apply (for_each_pure _ _
           (λ acc x, match polygon_of x with
                     | Some v => setitem x v acc
                     | None => acc
                     end)).
  intros d city Hcity.
  rewrite elem_of_sorted, elem_of_elements, elem_of_intersection in Hcity.
  destruct Hcity as [[c Hc]%elem_of_dom _].
  unfold polygon_of, table_subscript.
  rewrite Hc. cbn [mbind result_bind option_bind]. unfold table_contains.
  destruct (tzeva_polygons !! str (TzevaCity.id c)) as [p|] eqn:Hp.
  - by rewrite bool_decide_true by (by eexists).
  - by rewrite bool_decide_false by (by intros [? ?]).
Qed.

Lemma size_list_to_set_NoDup (l : list string) :
  length l = size (list_to_set l : gset string) ↔ NoDup l.
Proof.
  split; [apply length_size_NoDup|].
  intros Hnd. by rewrite size_list_to_set.
Qed.

(** X9.  [__init__] never raises [KeyError].  It returns exactly when no
    district-group name is also a non-group area or a city-group name and
    the two conditions of [_get_area_info] hold; otherwise it raises
    [AssertionError].  The city and district tables themselves are always
    built. *)
Theorem init_outcome (up : Upstream) :
  let backend_areas := _get_areas (cities_mix up) in
  let areas_no_group :=
    List.filter (λ area, negb (endswith area CITY_ALL_AREAS_SUFFIX))
                backend_areas in
  ∃ city_to_areas district_to_areas,
    _city_to_areas_map backend_areas areas_no_group = Ok city_to_areas
    ∧ _district_to_areas_map (districts up) areas_no_group city_to_areas
      = Ok district_to_areas
    ∧ (((∀ k, k ∈ keys district_to_areas →
              (k ∉ areas_no_group) ∧ (k ∉ keys city_to_areas))
        ∧ (area_info_conditions (tzeva_cities up) areas_no_group))
       ∧ (∃ md, __init__ up = Ok md)
       ∨ ¬ ((∀ k, k ∈ keys district_to_areas →
                  (k ∉ areas_no_group) ∧ (k ∉ keys city_to_areas))
            ∧ (area_info_conditions (tzeva_cities up) areas_no_group))
         ∧ __init__ up = Raise AssertionError).
Proof.
  intros backend_areas areas_no_group.
  pose proof (city_to_areas_map_eq backend_areas areas_no_group) as Hcity.
  set (city_to_areas := foldl _ empty _) in Hcity.
  assert (Hcnd : NoDup (keys city_to_areas)).
  { apply (assign_all_NoDup (λ c, c +:+ CITY_ALL_AREAS_SUFFIX)). constructor. }
  assert (Hcends : ∀ k, k ∈ keys city_to_areas →
                        endswith k CITY_ALL_AREAS_SUFFIX = true).
  { intros k Hk.
    apply (assign_all_keys (λ c, c +:+ CITY_ALL_AREAS_SUFFIX)) in Hk
      as [?%elem_of_nil|(c & -> & _)%list_elem_of_fmap]; [done|].
    apply endswith_spec. by eexists. }
  assert (Hang_nd : NoDup areas_no_group).
  { apply NoDup_ListNoDup, List.NoDup_filter, NoDup_ListNoDup.
    apply sorted_NoDup, NoDup_list_of_set. }
  assert (Hdisjoint : ∀ a, a ∈ areas_no_group → a ∉ keys city_to_areas).
  { intros a [_ Hend]%list_elem_of_In%filter_In Hkey.
    apply negb_true_iff in Hend. apply Hcends in Hkey. congruence. }
  pose proof (district_to_areas_map_eq (districts up) areas_no_group
                city_to_areas Hdisjoint) as Hdistrict.
  set (district_to_areas := foldl _ empty _) in Hdistrict.
  assert (Hdnd : NoDup (keys district_to_areas)).
  { apply (assign_all_NoDup (λ name, DISTRICT_PREFIX +:+ name)). constructor. }
  destruct (area_to_migun_time_map_eq (cities_mix up)) as (migun & Hmigun & _).
  destruct (area_to_polygon_total (tzeva_cities up) (tzeva_polygons up)
              areas_no_group) as (polygons & Hpolygons).
  exists city_to_areas, district_to_areas. split_and!; [done..|].
  unfold __init__. fold backend_areas. fold areas_no_group.
  rewrite Hcity. cbn [mbind result_bind].
  rewrite Hmigun. cbn [mbind result_bind].
  rewrite Hdistrict. cbn [mbind result_bind].
  set (all := (areas_no_group ++ keys city_to_areas
               ++ keys district_to_areas)%list).
  assert (Hall : NoDup (sorted all) ↔
                 ∀ k, k ∈ keys district_to_areas →
                      (k ∉ areas_no_group) ∧ (k ∉ keys city_to_areas)).
  { rewrite (sorted_perm all). unfold all. rewrite !NoDup_app. split.
    - intros (_ & Hcross & _ & Hcross' & _) k Hk. split.
      + intros Hin. apply (Hcross k Hin). rewrite elem_of_app. by right.
      + intros Hin. by apply (Hcross' k Hin).
    - intros Hfresh. split_and!; [done| |done| |done].
      + intros a Ha [Hc|Hd]%elem_of_app; [by apply (Hdisjoint a)|].
        by destruct (Hfresh a Hd).
      + intros a Ha Hd. by destruct (Hfresh a Hd). }
  destruct (decide (NoDup (sorted all))) as [Hnd|Hdup].
  2:{ right. split; [intros [Hfresh _]; by apply Hdup, Hall|].
      rewrite bool_decide_false; [done|]. by rewrite size_list_to_set_NoDup. }
  rewrite bool_decide_true by (by rewrite size_list_to_set_NoDup).
  cbn [assert mbind result_bind]. rewrite Hpolygons.
  cbn [mbind result_bind].
  destruct (area_info_outcome (tzeva_cities up) areas_no_group)
    as [[Hconds [areas Hareas]]|[Hconds Hraise]].
  - left. rewrite Hareas. cbn [mbind result_bind].
    split; [|by eexists]. split; [by apply Hall|done].
  - right. rewrite Hraise. split; [|done]. by intros [_ ?].
Qed.

End generator_extras.

(* ================================================================== *)
(** * Further properties of the reconciler                             *)
(* ================================================================== *)

Section reconciler_extras.
Import GeoLocation OrefAlertLocationEventManager.
Context `{Env}.

Local Notation new_entity w area :=
  (OrefAlertLocationEvent.__init__ w area (_alert_date w area)) (only parsing).

(** What the mapping promises about each of its entries. *)
Local Notation entry_matches_metadata area e :=
  (_attr_name e = area
   ∧ ∃ info, AREA_INFO !! area = Some info
             ∧ _attr_latitude e = lat info
             ∧ _attr_longitude e = long info) (only parsing).

Lemma entity_init_matches w area date e :
  OrefAlertLocationEvent.__init__ w area date = Ok e →
  entry_matches_metadata area e.
Proof.
  destruct (AREA_INFO !! area) as [info|] eqn:Hinfo.
  - destruct (entity_init_known w area date info Hinfo)
      as (e' & -> & ? & ? & ?).
    intros [= <-]. split; [done|]. by exists info.
  - by rewrite entity_init_unknown.
Qed.

Lemma alert_date_in_skip (earlier rest : list Alert) (area : string) :
  (∀ a, a ∈ earlier → data a ≠ area) →
  _alert_date_in (earlier ++ rest) area = _alert_date_in rest area.
Proof.
  induction earlier as [|a earlier IH]; intros Hne; [done|].
  cbn [app _alert_date_in].
  rewrite bool_decide_false by (apply Hne; left).
  apply IH. intros b Hb. apply Hne. by right.
Qed.

(** X10.  [_alert_date] is decided by the first active alert that names
    the area: when [parse_datetime] reads that alert's date, the result is
    that date with nothing changed but the zone, which is set to [IST];
    earlier alerts for other areas and later alerts for the same area play
    no part. *)
Theorem alert_date_of_first_match
    (w : World) (area : string) (earlier later : list Alert) (alert : Alert)
    (d : datetime) :
  active_alerts w = (earlier ++ alert :: later)%list →
  (∀ a, a ∈ earlier → data a ≠ area) →
  data alert = area →
  parse_datetime (alertDate alert) = Some d →
  _alert_date w area
  = Some {| year := year d; month := month d; day := day d;
            hour := hour d; minute := minute d; second := second d;
            microsecond := microsecond d; tzinfo := Some IST |}.
Proof.
  intros Heq Hearlier Hdata Hparse.
  unfold _alert_date. rewrite Heq, alert_date_in_skip by done.
  cbn [_alert_date_in]. rewrite bool_decide_true by done.
  by rewrite Hparse.
Qed.

(** X11.  Two entities constructed for the same listed area at different
    clock seconds have different unique ids. *)
Theorem unique_id_differs_across_seconds
    (w1 w2 : World) (area : string) (date1 date2 : option datetime) :
  is_Some (AREA_INFO !! area) →
  clock w1 ≠ clock w2 →
  ∃ e1 e2,
    OrefAlertLocationEvent.__init__ w1 area date1 = Ok e1
    ∧ OrefAlertLocationEvent.__init__ w2 area date2 = Ok e2
    ∧ _attr_unique_id e1 ≠ _attr_unique_id e2.
Proof.
  intros [info Hinfo] Hclock.
  unfold OrefAlertLocationEvent.__init__, table_subscript.
  rewrite Hinfo. cbn [mbind result_bind].
  eexists _, _. split_and!; [done..|].
  cbn [_attr_unique_id]. intros Hid. apply Hclock.
  do 6 apply (inj (String.app _)) in Hid.
  by apply (inj pretty) in Hid.
Qed.

End reconciler_extras.

(** "גדיש" is listed at 19:31 and at 19:35, after "אבו גוש" at 19:29:
    its date is 19:31 in the zone of [IST]. *)
Lemma alert_date_of_first_match_sample :
  GeoLocation.OrefAlertLocationEventManager._alert_date
    (H := Sample.env_dated) Sample.host_dated "גדיש"
  = Some {| GeoLocation.year := 2024; GeoLocation.month := 10;
            GeoLocation.day := 1; GeoLocation.hour := 19;
            GeoLocation.minute := 31; GeoLocation.second := 0;
            GeoLocation.microsecond := 0;
            GeoLocation.tzinfo := Some "Asia/Jerusalem" |}.
Proof.
  apply (alert_date_of_first_match (H := Sample.env_dated) Sample.host_dated
           "גדיש"
           [{| GeoLocation.data := "אבו גוש";
               GeoLocation.alertDate := "2024-10-01 19:29:00" |}]
           [Sample.gadish_later] Sample.gadish (Sample.at_time 19 31)).
  - reflexivity.
  - intros a ->%list_elem_of_singleton. vm_compute. discriminate.
  - reflexivity.
  - vm_compute. reflexivity.
Defined.

(** "גדיש" on the sample host, one second apart. *)
Lemma unique_id_differs_across_seconds_sample :
  ∃ e1 e2,
    GeoLocation.OrefAlertLocationEvent.__init__ (H := Sample.env)
      Sample.host "גדיש" None = Ok e1
    ∧ GeoLocation.OrefAlertLocationEvent.__init__ (H := Sample.env)
        (GeoLocation.set_clock 1727800261 Sample.host) "גדיש" None = Ok e2
    ∧ GeoLocation._attr_unique_id e1 ≠ GeoLocation._attr_unique_id e2.
Proof.
  apply (unique_id_differs_across_seconds (H := Sample.env)
           Sample.host (GeoLocation.set_clock 1727800261 Sample.host)
           "גדיש" None None).
  - vm_compute. eexists. reflexivity.
  - vm_compute. discriminate.
Defined.

Section reconciler_invariants.
Import GeoLocation OrefAlertLocationEventManager.
Context `{Env}.

Local Notation new_entity w area :=
  (OrefAlertLocationEvent.__init__ w area (_alert_date w area)) (only parsing).

(** An entry of the mapping is stored under the name of its entity, for an
    area of [AREA_INFO], at the coordinates listed there. *)
Local Notation matches_metadata :=
  (λ (area : string) (e : Entity),
     _attr_name e = area
     ∧ ∃ info, AREA_INFO !! area = Some info
               ∧ _attr_latitude e = lat info
               ∧ _attr_longitude e = long info) (only parsing).

Lemma update_keeps_matching (w w' : World) :
  _async_update w = Ok w' →
  map_Forall matches_metadata (_location_events w) →
  map_Forall matches_metadata (_location_events w').
Proof.
  intros Hupd Hinv area e He.
  destruct (async_update_spec w)
    as (to_add & w'' & Hupd' & Hev & _ & _ & _ & _ & _ & _ & _ & Hto_add).
  rewrite Hupd in Hupd'. injection Hupd' as <-.
  rewrite Hev in He. apply lookup_union_Some_raw in He as [He|[_ He]].
  - apply Hto_add in He as (_ & _ & _ & Hinit).
    by apply entity_init_matches in Hinit.
  - by apply Hinv.
Qed.

Lemma step_keeps_matching (w w' : World) (ev : event) :
  step w ev w' →
  map_Forall matches_metadata (_location_events w) →
  map_Forall matches_metadata (_location_events w').
Proof.
  intros Hstep Hinv.
  destruct Hstep as [w alerts w' Hsub Hupd|w alerts Hsub|w seconds Hpos
                    |w i wake_at Htask Hwake|w i entity Htask]; try done.
  - by apply (update_keeps_matching _ _ Hupd).
  - intros area e He. rewrite cleanup_resumed_events in He.
    case_decide; [|done]. by apply Hinv.
Qed.

(** X12.  Whatever happens after a manager is constructed, every entry of
    its mapping is stored under the name of its entity, is for an area
    that [AREA_INFO] lists, and carries the coordinates listed there. *)
Theorem mapping_always_matches_metadata
    (w0 : World) (entry_id : string) (w : World) (events : list event)
    (w' : World) :
  __init__ w0 entry_id = Ok w →
  run w events w' →
  map_Forall matches_metadata (_location_events w').
Proof.
  intros Hinit Hrun.
  assert (Hstart : map_Forall matches_metadata (_location_events w)).
  { unfold __init__ in Hinit.
    apply (update_keeps_matching _ _ Hinit). cbn. apply map_Forall_empty. }
  clear Hinit. induction Hrun as [w|w ev w1 events w2 Hstep Hrun IH]; [done|].
  apply IH. by apply (step_keeps_matching _ _ _ Hstep).
Qed.

(** X13.  No step of the event loop replaces the entity of an area: after
    the step the area either has left the mapping or still has the entity
    it was given. *)
Theorem entries_are_never_overwritten
    (w w' : World) (ev : event) (area : string) (e : Entity) :
  step w ev w' →
  _location_events w !! area = Some e →
  _location_events w' !! area = None ∨ _location_events w' !! area = Some e.
Proof.
  intros Hstep He.
  destruct Hstep as [w alerts w' Hsub Hupd|w alerts Hsub|w seconds Hpos
                    |w i wake_at Htask Hwake|w i entity Htask];
    try (by right).
  - right.
    destruct (async_update_spec (set_active_alerts alerts w))
      as (to_add & w'' & Hupd' & Hev & _ & _ & _ & _ & _ & _ & _ & Hto_add).
    rewrite Hupd in Hupd'. injection Hupd' as <-.
    rewrite Hev, lookup_union_r; [done|].
    destruct (to_add !! area) as [e'|] eqn:He'; [|done].
    apply Hto_add in He' as (_ & Hnone & _). cbn in Hnone. congruence.
  - rewrite cleanup_resumed_events. case_decide; [by right|by left].
Qed.

(** X14.  A second update on the same alert list finds nothing to add: it
    passes an empty batch to [async_add_entities] and leaves the mapping as
    the first update left it. *)
Theorem update_is_idempotent (w w1 : World) :
  _async_update w = Ok w1 →
  ∃ w2, _async_update w1 = Ok w2
        ∧ _location_events w2 = _location_events w1
        ∧ added w2 = (added w1 ++ [[]])%list.
Proof.
  intros Hupd.
  destruct (async_update_spec w)
    as (to_add & w1' & Hupd' & Hev & _ & _ & _ & _ & Halerts & _ & _ & Hto_add).
  rewrite Hupd in Hupd'. injection Hupd' as <-.
  destruct (async_update_spec w1)
    as (to_add1 & w2 & Hupd1 & Hev1 & Hadded1 & _ & _ & _ & _ & _ & _
        & Hto_add1).
  assert (to_add1 = ∅) as ->.
  { apply map_empty. intros area.
    destruct (to_add1 !! area) as [e1|] eqn:He1; [|done]. exfalso.
    apply Hto_add1 in He1 as (Hactive & Hnone & [info Hinfo] & _).
    rewrite Hev in Hnone. apply lookup_union_None in Hnone as [Hnew Hold].
    destruct (entity_init_known w area (_alert_date w area) info Hinfo)
      as (e & He & _).
    assert (to_add !! area = Some e) as Hin; [|congruence].
    apply Hto_add. split_and!; [|done|by eexists|done].
    unfold active_areas in *. by rewrite <-Halerts. }
  exists w2. split_and!; [done| |].
  - by rewrite Hev1, (left_id_L ∅ (∪)).
  - by rewrite Hadded1, map_to_list_empty.
Qed.

(** The constructor's effect on the tasks, the subscription and the
    mapping. *)
Lemma constructor_spec_tasks (w : World) (entry_id : string) :
  ∃ w', __init__ w entry_id = Ok w'
        ∧ tasks w' = tasks w
        ∧ subscribed w' = true
        ∧ dom (_location_events w') ⊆ active_areas w'.
Proof.
  unfold __init__.
  set (w0 := async_add_listener (_async_clean_start _)).
  destruct (async_update_spec w0)
    as (to_add & w' & Hupd & Hev & _ & Htasks & _ & _ & Halerts & Hsub & _
        & Hto_add).
  exists w'. split_and!; [done| |done|].
  - rewrite Htasks. cbn.
    rewrite bool_decide_false; [apply app_nil_r|].
    intros Hsize. apply Hsize, size_zero_empty, set_eq. intros x.
    rewrite elem_of_difference, dom_empty_L.
    split; [by intros [?%elem_of_empty _]|by intros ?%elem_of_empty].
  - intros area [e He]%elem_of_dom. rewrite Hev in He. cbn in He.
    rewrite (right_id_L ∅ (∪)) in He.
    apply Hto_add in He as (Hactive & _). unfold active_areas.
    by rewrite Halerts.
Qed.

(** X15.  Construction maps exactly the areas that are under alert and
    listed in [AREA_INFO], passes their entities on in one batch, and
    schedules no cleanup. *)
Theorem constructor_maps_active_listed_areas (w : World) (entry_id : string) :
  ∃ w' new,
    __init__ w entry_id = Ok w'
    ∧ (∀ area, is_Some (_location_events w' !! area) ↔
               area ∈ active_areas w ∧ is_Some (AREA_INFO !! area))
    ∧ added w' = (added w ++ [new])%list
    ∧ (∀ e, e ∈ new ↔ ∃ area, _location_events w' !! area = Some e)
    ∧ tasks w' = tasks w
    ∧ subscribed w' = true
    ∧ _config_entry_id w' = entry_id.
Proof.
  unfold __init__.
  set (w0 := async_add_listener (_async_clean_start _)).
  destruct (async_update_spec w0)
    as (to_add & w' & Hupd & Hev & Hadded & Htasks & _ & _ & _ & Hsub & Hid
        & Hto_add).
  exists w', (map_to_list to_add).*2.
  assert (Hev' : _location_events w' = to_add).
  { rewrite Hev. cbn. apply (right_id_L ∅ (∪)). }
  split_and!; [done| |done| | |done|done].
  - intros area. rewrite Hev'. split.
    + intros [e He]. by apply Hto_add in He as (? & _ & ? & _).
    + intros [Hactive [info Hinfo]].
      destruct (entity_init_known w0 area (_alert_date w0 area) info Hinfo)
        as (e & He & _).
      exists e. apply Hto_add. split_and!; [done|done|by eexists|done].
  - intros e. rewrite Hev'. apply elem_of_values.
  - rewrite Htasks. cbn.
    rewrite bool_decide_false; [apply app_nil_r|].
    intros Hsize. apply Hsize, size_zero_empty, set_eq. intros x.
    rewrite elem_of_difference, dom_empty_L.
    split; [by intros [?%elem_of_empty _]|by intros ?%elem_of_empty].
Qed.

(** ** What the cleanup does to the host *)

Local Notation cleanup_one :=
  (λ w area,
     match _location_events w !! area with
     | Some entity =>
         let w := set_location_events (delete area (_location_events w)) w in
         let w := OrefAlertLocationEvent.async_remove_self entity w in
         set_registry
           (async_remove (OrefAlertLocationEvent.entity_id entity)
              (registry w)) w
     | None => w
     end) (only parsing).

Lemma omap_ext_in {A B} (f g : A → option B) (l : list A) :
  (∀ x, x ∈ l → f x = g x) → omap f l = omap g l.
Proof.
  induction l as [|x l IH]; intros Hfg; [done|]. cbn [omap list_omap].
  rewrite Hfg by left. rewrite IH; [done|]. intros y Hy. apply Hfg. by right.
Qed.

Lemma cleanup_one_other (w : World) (x area : string) :
  area ≠ x →
  _location_events (cleanup_one w x) !! area = _location_events w !! area.
Proof.
  intros Hne. cbv beta. destruct (_location_events w !! x); [|done].
  cbn. by apply lookup_delete_ne.
Qed.

Lemma cleanup_loop_tasks (areas : list string) (w : World) :
  NoDup areas →
  tasks (foldl cleanup_one w areas)
  = (tasks w
     ++ omap (λ area, EntityRemove <$> _location_events w !! area) areas)%list.
Proof.
  revert w. induction areas as [|x xs IH]; intros w Hnd; cbn [foldl].
  - by rewrite app_nil_r.
  - apply NoDup_cons in Hnd as [Hx Hnd]. rewrite IH by done.
    cbn [omap list_omap].
    rewrite (omap_ext_in _
               (λ area, EntityRemove <$> _location_events w !! area)).
    2:{ intros area Harea. rewrite cleanup_one_other; [done|].
        by intros ->. }
    cbv beta zeta. destruct (_location_events w !! x); cbn.
    + by rewrite <-app_assoc.
    + done.
Qed.

Lemma cleanup_loop_registry (areas : list string) (w : World) (id : string) :
  NoDup areas →
  registry (foldl cleanup_one w areas) !! id
  = if bool_decide
         (id ∈ omap (λ area, OrefAlertLocationEvent.entity_id
                               <$> _location_events w !! area) areas)
    then None
    else registry w !! id.
Proof.
  revert w. induction areas as [|x xs IH]; intros w Hnd; cbn [foldl].
  - by rewrite bool_decide_false by apply not_elem_of_nil.
  - apply NoDup_cons in Hnd as [Hx Hnd]. rewrite IH by done.
    cbn [omap list_omap].
    rewrite (omap_ext_in _
               (λ area, OrefAlertLocationEvent.entity_id
                          <$> _location_events w !! area)).
    2:{ intros area Harea. rewrite cleanup_one_other; [done|].
        by intros ->. }
    set (rest := omap _ xs).
    cbv beta zeta. destruct (_location_events w !! x) as [e|]; cbn; [|done].
    unfold async_remove.
    destruct (decide (id ∈ rest)) as [Hin|Hin].
    + rewrite (bool_decide_true (id ∈ rest)) by done.
      by rewrite bool_decide_true by (by right).
    + rewrite (bool_decide_false (id ∈ rest)) by done.
      destruct (decide (id = OrefAlertLocationEvent.entity_id e)) as [->|Hne].
      * rewrite bool_decide_true by left. apply lookup_delete_eq.
      * rewrite bool_decide_false by (by intros [?|?]%elem_of_cons).
        by apply lookup_delete_ne.
Qed.

Lemma elem_of_omap_stale {B} (g : Entity → B) (w : World) (b : B) :
  b ∈ omap (λ area, g <$> _location_events w !! area)
        (elements (dom (_location_events w) ∖ active_areas w))
  ↔ ∃ area e, _location_events w !! area = Some e
              ∧ (area ∉ active_areas w) ∧ b = g e.
Proof.
  rewrite list_elem_of_omap. split.
  - intros (area & Harea & Hb).
    apply elem_of_elements, elem_of_difference in Harea as [_ Hstale].
    destruct (_location_events w !! area) as [e|] eqn:He; [|done].
    injection Hb as <-. by exists area, e.
  - intros (area & e & He & Hstale & ->). exists area. split.
    + apply elem_of_elements, elem_of_difference. split; [|done].
      apply elem_of_dom. by eexists.
    + by rewrite He.
Qed.

(** X16.  When a cleanup resumes, it queues the removal of exactly the
    entities it drops from the mapping, one task each, and deletes their
    entity ids from the registry; other registry entries, the pending
    cleanups and the batches already passed on stay as they were.  When no
    mapped area is stale it changes nothing at all. *)
Theorem cleanup_queues_removal_of_dropped_entities (w : World) :
  let w' := _cleanup_entities_resumed w in
  (∀ t, t ∈ tasks w' ↔
        t ∈ tasks w
        ∨ ∃ area e, _location_events w !! area = Some e
                    ∧ (area ∉ active_areas w) ∧ t = EntityRemove e)
  ∧ length (tasks w')
    = (length (tasks w) + size (dom (_location_events w) ∖ active_areas w))%nat
  ∧ (∀ id,
       registry w' !! id
       = if bool_decide
              (∃ area e, _location_events w !! area = Some e
                         ∧ (area ∉ active_areas w)
                         ∧ id = OrefAlertLocationEvent.entity_id e)
         then None
         else registry w !! id)
  ∧ pending_cleanups w' = pending_cleanups w
  ∧ added w' = added w
  ∧ (dom (_location_events w) ⊆ active_areas w → w' = w).
Proof.
  intros w'. subst w'. unfold _cleanup_entities_resumed.
  set (stale := elements (dom (_location_events w) ∖ active_areas w)).
  assert (Hnd : NoDup stale) by apply NoDup_elements.
  split_and!.
  - intros t. rewrite cleanup_loop_tasks, elem_of_app by done.
    unfold stale. by rewrite (elem_of_omap_stale EntityRemove).
  - rewrite cleanup_loop_tasks, length_app by done. f_equal.
    transitivity (length stale); [|done].
    clear Hnd. assert (Hall : ∀ area, area ∈ stale →
                         is_Some (_location_events w !! area)).
    { intros area [Hin _]%elem_of_elements%elem_of_difference.
      by apply elem_of_dom. }
    induction stale as [|x xs IH]; [done|]. cbn [omap list_omap].
    destruct (Hall x) as [e ->]; [left|]. cbn. f_equal. apply IH.
    intros area Harea. apply Hall. by right.
  - intros id. rewrite cleanup_loop_registry by done.
    unfold stale.
    by rewrite (bool_decide_ext _ _
                  (elem_of_omap_stale OrefAlertLocationEvent.entity_id w id)).
  - apply cleanup_loop_frame.
  - apply cleanup_loop_frame.
  - intros Hsub.
    assert (stale = []) as ->; [|done].
    apply elements_empty_iff. intros area.
    rewrite elem_of_difference. split; [|by intros ?%elem_of_empty].
    intros [Hin Hout]. destruct Hout. by apply Hsub.
Qed.

(** ** The clean start, again *)

Lemma clean_start_lookup (w : World) (id : string) :
  registry (_async_clean_start w) !! id
  = match registry w !! id with
    | Some entry =>
        if bool_decide (config_entry_id entry = Some (_config_entry_id w)
                        ∧ domain entry = GEO_LOCATION)
        then None
        else Some entry
    | None => None
    end.
Proof.
  unfold _async_clean_start. cbn [registry set_registry].
  rewrite clean_start_loop.
  assert (Hin : id ∈ (List.filter
                        (λ entry, bool_decide (domain entry.2 = GEO_LOCATION))
                        (async_entries_for_config_entry (registry w)
                           (_config_entry_id w))).*1
                ↔ ∃ entry, registry w !! id = Some entry
                           ∧ config_entry_id entry = Some (_config_entry_id w)
                           ∧ domain entry = GEO_LOCATION).
  { unfold async_entries_for_config_entry. rewrite list_elem_of_fmap. split.
    - intros ([id' entry] & -> & Hfilter). exists entry.
      apply list_elem_of_In, filter_In in Hfilter as [Hfilter Hdom].
      apply filter_In in Hfilter as [Hreg Hcfg].
      apply list_elem_of_In, elem_of_map_to_list in Hreg.
      apply bool_decide_eq_true in Hdom, Hcfg. done.
    - intros (entry & Hreg & Hcfg & Hdom). exists (id, entry).
      split; [done|]. apply list_elem_of_In, filter_In. split.
      + apply filter_In. split.
        * by apply list_elem_of_In, elem_of_map_to_list.
        * by apply bool_decide_eq_true.
      + by apply bool_decide_eq_true. }
  destruct (registry w !! id) as [entry|] eqn:Hreg.
  - destruct (decide (config_entry_id entry = Some (_config_entry_id w)
                      ∧ domain entry = GEO_LOCATION)) as [Hc|Hc].
    + rewrite (bool_decide_true (_ ∧ _)) by done.
      rewrite bool_decide_true; [done|]. apply Hin. by exists entry.
    + rewrite (bool_decide_false (_ ∧ _)) by done.
      rewrite bool_decide_false; [done|].
      intros (entry' & [= <-] & ? & ?)%Hin. by apply Hc.
  - rewrite bool_decide_false; [done|]. by intros (? & ? & _)%Hin.
Qed.

(** X17.  After the clean start no geo-location entry of this config
    entry is left in the registry, a second clean start finds nothing more
    to remove, and nothing but the registry is touched. *)
Theorem clean_start_is_idempotent (w : World) :
  _async_clean_start (_async_clean_start w) = _async_clean_start w
  ∧ (∀ id entry,
       registry (_async_clean_start w) !! id = Some entry →
       ¬ (config_entry_id entry = Some (_config_entry_id w)
          ∧ domain entry = GEO_LOCATION))
  ∧ _async_clean_start w = set_registry (registry (_async_clean_start w)) w.
Proof.
  assert (Hclean : ∀ id entry,
            registry (_async_clean_start w) !! id = Some entry →
            registry w !! id = Some entry
            ∧ ¬ (config_entry_id entry = Some (_config_entry_id w)
                 ∧ domain entry = GEO_LOCATION)).
  { intros id entry. rewrite clean_start_lookup.
    destruct (registry w !! id) as [entry'|]; [|done].
    case_bool_decide; [done|]. by intros [= <-]. }
  split_and!.
  - assert (Hreg : registry (_async_clean_start (_async_clean_start w))
                   = registry (_async_clean_start w)).
    { apply map_eq. intros id. rewrite (clean_start_lookup (_ w)).
      destruct (registry (_async_clean_start w) !! id) as [entry|] eqn:He;
        [|done].
      apply Hclean in He as [_ Hno]. by rewrite bool_decide_false. }
    unfold _async_clean_start at 1. fold (_async_clean_start w).
    unfold _async_clean_start at 1 in Hreg.
    cbn [registry set_registry] in Hreg. unfold set_registry.
    rewrite Hreg. done.
  - intros id entry He. by apply Hclean in He as [_ ?].
  - done.
Qed.

(** X18.  A refresh followed, after any wait, by the resumption of a
    cleanup brings the mapping in line with the refreshed list: its areas
    are exactly the areas under alert that [AREA_INFO] lists. *)
Theorem refresh_then_cleanup_synchronizes
    (w w1 w2 w3 : World) (alerts : list Alert) (seconds : Z) (i : nat)
    (wake_at : Z) :
  subscribed w = true →
  map_Forall (λ area _, is_Some (AREA_INFO !! area)) (_location_events w) →
  step w (Refresh alerts) w1 →
  step w1 (Tick seconds) w2 →
  tasks w2 !! i = Some (CleanupEntities wake_at) →
  step w2 (Resume i) w3 →
  dom (_location_events w3) = list_to_set (map data alerts) ∩ dom AREA_INFO.
Proof.
  intros Hsub Hinv Hrefresh Htick Htask Hresume.
  inversion Hrefresh as [w' alerts' w1' _ Hupd|w' alerts' Hunheard| | |];
    subst; [|congruence].
  inversion Htick as [| |w' seconds' _| |]; subst.
  inversion Hresume as [| | |w' i' wake_at' _ _|w' i' entity Htask'];
    subst; [|congruence].
  destruct (async_update_spec (set_active_alerts alerts w))
    as (to_add & w1' & Hupd' & Hev & _ & _ & _ & _ & Halerts & _ & _
        & Hto_add).
  rewrite Hupd in Hupd'. injection Hupd' as <-.
  cbn in Halerts, Hto_add, Hev.
  apply set_eq. intros area.
  rewrite elem_of_dom, cleanup_resumed_events, elem_of_intersection.
  rewrite elem_of_dom. unfold active_areas. cbn. rewrite Halerts, Hev.
  destruct (decide (area ∈ (list_to_set (map data alerts) : gset string)))
    as [Hactive|Hquiet]; [|split; [by intros [? ?]|by intros [? _]]].
  split.
  - intros [e [He|[_ He]]%lookup_union_Some_raw]; (split; [done|]).
    + by apply Hto_add in He as (_ & _ & ? & _).
    + by apply (Hinv area e).
  - intros [_ [info Hinfo]].
    destruct (_location_events w !! area) as [e|] eqn:He.
    + exists e. rewrite lookup_union_r; [done|].
      destruct (to_add !! area) as [e'|] eqn:He'; [|done].
      apply Hto_add in He' as (_ & ? & _). congruence.
    + destruct (entity_init_known (set_active_alerts alerts w) area
                  (_alert_date (set_active_alerts alerts w) area) info Hinfo)
        as (e & Hinit & _).
      exists e. apply lookup_union_Some_l, Hto_add.
      split_and!; [done|done|by eexists|done].
Qed.

End reconciler_invariants.

(** ** The further properties on the sample host *)

Section reconciler_extras_samples.
Import GeoLocation OrefAlertLocationEventManager.

Lemma sample_started :
  __init__ (H := Sample.env)
    (set_active_alerts [Sample.gadish] Sample.host) "entry1"
  = Ok Sample.started.
Proof. vm_compute. reflexivity. Defined.

(** The manager of the sample host, five seconds after construction. *)
Lemma mapping_always_matches_metadata_sample :
  map_Forall
    (λ (area : string) (e : Entity),
       _attr_name e = area
       ∧ ∃ info, AREA_INFO (Env := Sample.env) !! area = Some info
                 ∧ _attr_latitude e = lat info
                 ∧ _attr_longitude e = long info)
    (_location_events
       (set_clock (clock Sample.started + 5) Sample.started)).
Proof.
  apply (mapping_always_matches_metadata (H := Sample.env)
           (set_active_alerts [Sample.gadish] Sample.host) "entry1"
           Sample.started [Tick 5]).
  - exact sample_started.
  - eapply run_cons; [|apply run_nil]. apply step_tick. lia.
Defined.

(** A refresh that still lists "גדיש" keeps its entity. *)
Lemma entries_are_never_overwritten_sample :
  ∃ e,
    _location_events Sample.started !! "גדיש" = Some e
    ∧ (_location_events Sample.refreshed !! "גדיש" = None
       ∨ _location_events Sample.refreshed !! "גדיש" = Some e).
Proof.
  eexists. split; [vm_compute; reflexivity|].
  apply (entries_are_never_overwritten (H := Sample.env)
           Sample.started Sample.refreshed
           (Refresh [Sample.gadish; Sample.abu_gosh]) "גדיש").
  - apply step_refresh; vm_compute; reflexivity.
  - vm_compute. reflexivity.
Defined.

(** A second update right after that refresh. *)
Lemma update_is_idempotent_sample :
  ∃ w2,
    _async_update (H := Sample.env) Sample.refreshed = Ok w2
    ∧ _location_events w2 = _location_events Sample.refreshed
    ∧ added w2 = (added Sample.refreshed ++ [[]])%list.
Proof.
  apply (update_is_idempotent (H := Sample.env)
           (set_active_alerts [Sample.gadish; Sample.abu_gosh] Sample.started)
           Sample.refreshed).
  vm_compute. reflexivity.
Defined.

(** "גדיש" leaves the feed; ten seconds later the cleanup resumes. *)
Lemma refresh_then_cleanup_synchronizes_sample :
  dom (_location_events
         (_cleanup_entities_resumed (H := Sample.env)
            (set_tasks (delete 0 (tasks Sample.cleared_later))
               Sample.cleared_later)))
  = list_to_set (map data [Sample.abu_gosh])
    ∩ dom (AREA_INFO (Env := Sample.env)).
Proof.
  apply (refresh_then_cleanup_synchronizes (H := Sample.env)
           Sample.started Sample.cleared Sample.cleared_later _
           [Sample.abu_gosh] 10 0 1727800270).
  - vm_compute. reflexivity.
  - apply (bool_decide_unpack _). vm_compute. exact I.
  - apply step_refresh; vm_compute; reflexivity.
  - apply step_tick. lia.
  - vm_compute. reflexivity.
  - apply step_resume_cleanup with (wake_at := 1727800270%Z).
    + vm_compute. reflexivity.
    + vm_compute. discriminate.
Defined.

End reconciler_extras_samples.

(** ** Pending cleanups along a run *)

Section reconciler_schedule.
Import GeoLocation OrefAlertLocationEventManager.
Context `{Env}.

Local Notation is_cleanup :=
  (λ t : Task, match t with CleanupEntities _ => true | _ => false end)
  (only parsing).

(** A cleanup task sleeps for at most the fixed delay from now. *)
Local Notation wakes_within_delay w :=
  (Forall (λ t : Task,
             match t with
             | CleanupEntities wake_at =>
                 Z.le wake_at (Z.add (clock w) _cleanup_entities_sleep)
             | EntityRemove _ => True
             end) (tasks w)) (only parsing).

Lemma filter_delete_other {A} (f : A → bool) (l : list A) (i : nat) (x : A) :
  l !! i = Some x → f x = false →
  List.filter f (delete i l) = List.filter f l.
Proof.
  revert i. induction l as [|y l IH]; intros [|i] Hi Hf; try done.
  - cbn in Hi. injection Hi as ->. cbn. by rewrite Hf.
  - cbn in *. destruct (f y); [f_equal|]; by eapply IH.
Qed.

Lemma Forall_delete {A} (P : A → Prop) (l : list A) (i : nat) :
  Forall P l → Forall P (delete i l).
Proof.
  intros Hall. revert i.
  induction Hall as [|x l Hx Hl IH]; intros [|i]; cbn; try done.
  constructor; [done|apply IH].
Qed.

Lemma cleanup_resumed_tasks (w : World) :
  ∃ removals,
    tasks (_cleanup_entities_resumed w) = (tasks w ++ removals)%list
    ∧ Forall (λ t, is_cleanup t = false) removals.
Proof.
  unfold _cleanup_entities_resumed.
  rewrite cleanup_loop_tasks by apply NoDup_elements.
  eexists. split; [done|]. apply Forall_forall.
  intros t (area & _ & Ht)%list_elem_of_omap.
  destruct (_location_events w !! area); [|done]. by injection Ht as <-.
Qed.

Lemma cleanup_resumed_frame (w : World) :
  clock (_cleanup_entities_resumed w) = clock w
  ∧ active_alerts (_cleanup_entities_resumed w) = active_alerts w
  ∧ subscribed (_cleanup_entities_resumed w) = subscribed w.
Proof.
  unfold _cleanup_entities_resumed.
  destruct (cleanup_loop_frame
              (elements (dom (_location_events w) ∖ active_areas w)) w)
    as (? & ? & ? & _).
  done.
Qed.

(** X19.  In every world reached from a constructed manager that started
    without pending cleanups, each pending cleanup wakes no later than the
    fixed delay of ten seconds from now. *)
Theorem cleanup_wakes_within_delay
    (w0 : World) (entry_id : string) (w : World) (events : list event)
    (w' : World) :
  __init__ w0 entry_id = Ok w →
  pending_cleanups w0 = [] →
  run w events w' →
  wakes_within_delay w' ∧ _cleanup_entities_sleep = 10%Z.
Proof.
  intros Hinit Hnone Hrun. split; [|done].
  assert (Hstart : wakes_within_delay w).
  { destruct (constructor_spec_tasks w0 entry_id) as (w1 & Hinit1 & Htasks & _).
    rewrite Hinit in Hinit1. injection Hinit1 as <-. rewrite Htasks.
    apply Forall_forall. intros t Ht. destruct t as [wake_at|]; [|done].
    assert (CleanupEntities wake_at ∈ pending_cleanups w0) as Hin.
    { apply list_elem_of_In, filter_In. by rewrite <-list_elem_of_In. }
    rewrite Hnone in Hin. by apply elem_of_nil in Hin. }
  clear Hinit Hnone.
  induction Hrun as [w|w ev w1 events w2 Hstep Hrun IH]; [done|].
  apply IH. clear IH Hrun.
  destruct Hstep as [w alerts w' Hsub Hupd|w alerts Hsub|w seconds Hpos
                    |w i wake_at Htask Hwake|w i entity Htask].
  - destruct (async_update_spec (set_active_alerts alerts w))
      as (to_add & w'' & Hupd' & _ & _ & Htasks & _ & Hclock & _).
    rewrite Hupd in Hupd'. injection Hupd' as <-.
    rewrite Htasks, Hclock. cbn. apply Forall_app. split; [done|].
    destruct (bool_decide _); [|by constructor]. apply Forall_singleton.
    unfold _cleanup_entities_sleep. lia.
  - done.
  - cbn. eapply Forall_impl; [exact Hstart|].
    intros [wake_at|]; [|done]. cbn. lia.
  - destruct (cleanup_resumed_tasks (set_tasks (delete i (tasks w)) w))
      as (removals & -> & Hremovals).
    destruct (cleanup_resumed_frame (set_tasks (delete i (tasks w)) w))
      as (Hclock & _).
    rewrite Hclock. cbn.
    apply Forall_app. split; [by apply Forall_delete|].
    eapply Forall_impl; [exact Hremovals|]. by intros [|].
  - cbn. by apply Forall_delete.
Qed.

(** X20.  In every world reached from a constructed manager, a mapped
    area that is not under alert has a cleanup pending: either every
    mapped area is active, or at least one cleanup task waits. *)
Theorem stale_area_has_pending_cleanup
    (w0 : World) (entry_id : string) (w : World) (events : list event)
    (w' : World) :
  __init__ w0 entry_id = Ok w →
  run w events w' →
  dom (_location_events w') ⊆ active_areas w' ∨ pending_cleanups w' ≠ [].
Proof.
  intros Hinit Hrun.
  assert (Hstart : subscribed w = true
                   ∧ (dom (_location_events w) ⊆ active_areas w
                      ∨ pending_cleanups w ≠ [])).
  { destruct (constructor_spec_tasks w0 entry_id)
      as (w1 & Hinit1 & _ & Hsub & Hdom).
    rewrite Hinit in Hinit1. injection Hinit1 as <-. split; [done|by left]. }
  clear Hinit.
  enough (subscribed w' = true
          ∧ (dom (_location_events w') ⊆ active_areas w'
             ∨ pending_cleanups w' ≠ [])) as [_ ?]; [done|].
  induction Hrun as [w|w ev w1 events w2 Hstep Hrun IH]; [done|].
  apply IH. clear IH Hrun. destruct Hstart as [Hsubscribed Hstart].
  destruct Hstep as [w alerts w' Hsub Hupd|w alerts Hsub|w seconds Hpos
                    |w i wake_at Htask Hwake|w i entity Htask].
  - destruct (async_update_spec (set_active_alerts alerts w))
      as (to_add & w'' & Hupd' & Hev & _ & Htasks & _ & _ & Halerts & Hsub'
          & _ & Hto_add).
    rewrite Hupd in Hupd'. injection Hupd' as <-.
    split; [by rewrite Hsub'|].
    destruct (decide (size (dom (_location_events (set_active_alerts alerts w))
                            ∖ active_areas (set_active_alerts alerts w)) = 0))
      as [Hnone|Hsome].
    + left. intros area [e He]%elem_of_dom. unfold active_areas.
      rewrite Halerts. rewrite Hev in He.
      apply lookup_union_Some_raw in He as [He|[_ He]].
      * by apply Hto_add in He as (? & _).
      * destruct (decide (area ∈ active_areas (set_active_alerts alerts w)))
          as [|Hstale]; [done|]. exfalso.
        apply size_zero_empty in Hnone.
        apply (not_elem_of_empty (C:=gset string) area). rewrite <-Hnone.
        apply elem_of_difference. split; [|done].
        apply elem_of_dom. by eexists.
    + right. unfold pending_cleanups. rewrite Htasks.
      rewrite (bool_decide_true (size _ ≠ 0)) by done.
      rewrite List.filter_app. cbn. by intros [_ ?]%app_eq_nil.
  - congruence.
  - done.
  - destruct (cleanup_resumed_frame (set_tasks (delete i (tasks w)) w))
      as (_ & Halerts & Hsub').
    split; [by rewrite Hsub'|].
    left. intros area [e He]%elem_of_dom.
    rewrite cleanup_resumed_events in He.
    unfold active_areas. rewrite Halerts. by case_decide.
  - split; [done|]. destruct Hstart as [?|Hpending]; [by left|right].
    unfold pending_cleanups in *. cbn.
    by rewrite (filter_delete_other _ _ _ _ Htask).
Qed.

End reconciler_schedule.

Section reconciler_schedule_samples.
Import GeoLocation OrefAlertLocationEventManager.

Lemma sample_run_cleared :
  run (H := Sample.env) Sample.started [Refresh [Sample.abu_gosh]]
    Sample.cleared.
Proof.
  eapply run_cons; [|apply run_nil].
  apply step_refresh; vm_compute; reflexivity.
Defined.

(** The sample manager right after "גדיש" left the feed. *)
Lemma cleanup_wakes_within_delay_sample :
  Forall (λ t : Task,
            match t with
            | CleanupEntities wake_at =>
                Z.le wake_at
                  (Z.add (clock Sample.cleared) _cleanup_entities_sleep)
            | EntityRemove _ => True
            end) (tasks Sample.cleared)
  ∧ _cleanup_entities_sleep = 10%Z.
Proof.
  apply (cleanup_wakes_within_delay (H := Sample.env)
           (set_active_alerts [Sample.gadish] Sample.host) "entry1"
           Sample.started [Refresh [Sample.abu_gosh]] Sample.cleared).
  - exact sample_started.
  - reflexivity.
  - exact sample_run_cleared.
Defined.

Lemma stale_area_has_pending_cleanup_sample :
  dom (_location_events Sample.cleared) ⊆ active_areas Sample.cleared
  ∨ pending_cleanups Sample.cleared ≠ [].
Proof.
  apply (stale_area_has_pending_cleanup (H := Sample.env)
           (set_active_alerts [Sample.gadish] Sample.host) "entry1"
           Sample.started [Refresh [Sample.abu_gosh]] Sample.cleared).
  - exact sample_started.
  - exact sample_run_cleared.
Defined.

End reconciler_schedule_samples.

(* ================================================================== *)
(** * When entities are removed                                        *)
(* ================================================================== *)

Section removal_facts.
Import GeoLocation OrefAlertLocationEventManager.
Context `{Env}.

Lemma run_snoc (w w' w'' : World) (events : list event) (ev : event) :
  run w events w' → step w' ev w'' → run w (events ++ [ev]) w''.
Proof.
  intros Hrun Hstep.
  induction Hrun as [w|w e w1 events w2 Hstep1 Hrun IH]; cbn.
  - eapply run_cons; [exact Hstep|apply run_nil].
  - eapply run_cons; [exact Hstep1|by apply IH].
Qed.

Lemma run_snoc_inv (w w'' : World) (events : list event) (ev : event) :
  run w (events ++ [ev]) w'' → ∃ w', run w events w' ∧ step w' ev w''.
Proof.
  revert w. induction events as [|e events IH]; intros w Hrun; cbn in Hrun.
  - inversion Hrun as [|w0 e0 w1 es w2 Hstep Hrest]; subst.
    inversion Hrest; subst. exists w. split; [apply run_nil|done].
  - inversion Hrun as [|w0 e0 w1 es w2 Hstep Hrest]; subst.
    destruct (IH _ Hrest) as (w' & Hrun' & Hstep').
    exists w'. split; [|done]. eapply run_cons; [exact Hstep|exact Hrun'].
Qed.

Lemma step_clock_mono (w w' : World) (ev : event) :
  step w ev w' → (clock w ≤ clock w')%Z.
Proof.
  intros Hstep.
  destruct Hstep as [w alerts w' Hsub Hupd|w alerts Hsub|w seconds Hpos
                    |w i wake_at Htask Hwake|w i entity Htask]; cbn; try lia.
  - destruct (async_update_spec (set_active_alerts alerts w))
      as (to_add & w'' & Hupd' & _ & _ & _ & _ & Hclock & _).
    rewrite Hupd in Hupd'. injection Hupd' as <-. rewrite Hclock. cbn. lia.
  - destruct (cleanup_resumed_frame (set_tasks (delete i (tasks w)) w))
      as (Hclock & _).
    rewrite Hclock. cbn. lia.
Qed.

Lemma run_clock_mono (w w' : World) (events : list event) :
  run w events w' → (clock w ≤ clock w')%Z.
Proof.
  induction 1 as [w|w e w1 events w2 Hstep Hrun IH]; [lia|].
  apply step_clock_mono in Hstep. lia.
Qed.

Lemma elem_of_delete_list {A} (l : list A) (i : nat) (x : A) :
  x ∈ delete i l → x ∈ l.
Proof.
  revert i. induction l as [|y l IH]; intros [|i]; cbn; try done.
  - by right.
  - intros [->|Hx]%elem_of_cons; [left|right; by eapply IH].
Qed.

(** Where a pending cleanup comes from: it was pending before the step, or
    the step is a refresh that found a mapped area that is not active and
    scheduled it for ten seconds later. *)
Lemma step_pending_cleanup (w w' : World) (ev : event) (wake_at : Z) :
  step w ev w' →
  CleanupEntities wake_at ∈ tasks w' →
  CleanupEntities wake_at ∈ tasks w
  ∨ ∃ alerts, ev = Refresh alerts
              ∧ wake_at = (clock w' + 10)%Z
              ∧ ¬ dom (_location_events w) ⊆ list_to_set (map data alerts).
Proof.
  intros Hstep Hin.
  destruct Hstep as [w alerts w' Hsub Hupd|w alerts Hsub|w seconds Hpos
                    |w i wake_at' Htask Hwake|w i entity Htask].
  - destruct (async_update_spec (set_active_alerts alerts w))
      as (to_add & w'' & Hupd' & _ & _ & Htasks & _ & Hclock & _).
    rewrite Hupd in Hupd'. injection Hupd' as <-.
    rewrite Htasks in Hin. apply elem_of_app in Hin as [Hin|Hin]; [by left|].
    right. exists alerts. cbn in Hin, Hclock.
    destruct (decide (size (dom (_location_events w)
                            ∖ list_to_set (map data alerts)) ≠ 0))
      as [Hstale|Hnone].
    + rewrite bool_decide_true in Hin by done.
      apply list_elem_of_singleton in Hin. injection Hin as ->.
      split_and!; [done|by rewrite Hclock|].
      intros Hsub'. apply Hstale, size_zero_empty, set_eq. intros area.
      rewrite elem_of_difference. split; [|by intros ?%elem_of_empty].
      intros [Hmapped Hquiet]. destruct Hquiet. by apply Hsub'.
    + rewrite bool_decide_false in Hin by done. by apply elem_of_nil in Hin.
  - by left.
  - by left.
  - left.
    destruct (cleanup_resumed_tasks (set_tasks (delete i (tasks w)) w))
      as (removals & Htasks & Hremovals).
    rewrite Htasks in Hin. cbn in Hin.
    apply elem_of_app in Hin as [Hin|Hin]; [by eapply elem_of_delete_list|].
    rewrite Forall_forall in Hremovals. by apply Hremovals in Hin.
  - left. cbn in Hin. by eapply elem_of_delete_list.
Qed.

(** Every pending cleanup of a run that began without one was scheduled,
    for ten seconds later, by a refresh of the run that found a mapped
    area that was not active. *)
Lemma pending_cleanup_history (w w' : World) (events : list event)
    (wake_at : Z) :
  pending_cleanups w = [] →
  run w events w' →
  CleanupEntities wake_at ∈ tasks w' →
  ∃ before alerts w_pre w_post after,
    events = (before ++ Refresh alerts :: after)%list
    ∧ run w before w_pre
    ∧ step w_pre (Refresh alerts) w_post
    ∧ run w_post after w'
    ∧ wake_at = (clock w_post + 10)%Z
    ∧ ¬ dom (_location_events w_pre) ⊆ list_to_set (map data alerts).
Proof.
  intros Hnone. revert w' wake_at.
  induction events as [|ev events IH] using rev_ind; intros w' wake_at Hrun Hin.
  - inversion Hrun; subst. exfalso.
    assert (CleanupEntities wake_at ∈ pending_cleanups w') as Hpending.
    { apply list_elem_of_In, filter_In. by rewrite <-list_elem_of_In. }
    rewrite Hnone in Hpending. by apply elem_of_nil in Hpending.
  - apply run_snoc_inv in Hrun as (w1 & Hrun & Hstep).
    destruct (step_pending_cleanup _ _ _ _ Hstep Hin)
      as [Hold|(alerts & -> & -> & Hstale)].
    + destruct (IH _ _ Hrun Hold)
        as (before & alerts & w_pre & w_post & after & -> & Hbefore & Hrefresh
            & Hafter & -> & Hstale).
      exists before, alerts, w_pre, w_post, (after ++ [ev])%list.
      split_and!; [|done|done| |done|done].
      * by rewrite <-app_assoc.
      * by eapply run_snoc.
    + exists events, alerts, w1, w', []. split_and!; try done. apply run_nil.
Qed.

(** C2 (as the code has it).  Removal is left to cleanup tasks.
    - [_async_update] removes nothing.  Whenever it finds a mapped area
      that is not active it schedules one cleanup, which sleeps for ten
      seconds; otherwise it schedules nothing.
    - When a cleanup resumes, it keeps the entity of every area that is
      active at that moment and removes the entity of every other area.
    - In any step of the event loop, an entity that disappears from the
      mapping does so because a cleanup task resumed whose sleep was over,
      at a moment when the area was not active.
    - After construction on a host without pending cleanups, every removal
      is the work of a cleanup that a refresh of the run scheduled at
      least ten seconds before, when it found a mapped area that was not
      active. *)
Theorem removal_waits_for_a_cleanup :
  (∀ w, ∃ w',
      _async_update w = Ok w'
      ∧ (∀ area e, _location_events w !! area = Some e →
                   _location_events w' !! area = Some e)
      ∧ tasks w'
        = (tasks w ++
           if bool_decide (dom (_location_events w) ⊆ active_areas w)
           then []
           else [CleanupEntities (clock w + _cleanup_entities_sleep)])%list
      ∧ _cleanup_entities_sleep = 10%Z)
  ∧ (∀ w area,
      _location_events (_cleanup_entities_resumed w) !! area
      = if decide (area ∈ active_areas w) then _location_events w !! area
        else None)
  ∧ (∀ w ev w' area,
      step w ev w' →
      is_Some (_location_events w !! area) →
      _location_events w' !! area = None →
      ∃ i wake_at,
        ev = Resume i
        ∧ tasks w !! i = Some (CleanupEntities wake_at)
        ∧ (wake_at ≤ clock w)%Z
        ∧ area ∉ active_areas w)
  ∧ (∀ w0 entry_id w events w' ev w'' area,
      __init__ w0 entry_id = Ok w →
      pending_cleanups w0 = [] →
      run w events w' →
      step w' ev w'' →
      is_Some (_location_events w' !! area) →
      _location_events w'' !! area = None →
      ∃ before alerts w_pre w_post after,
        events = (before ++ Refresh alerts :: after)%list
        ∧ run w before w_pre
        ∧ step w_pre (Refresh alerts) w_post
        ∧ run w_post after w'
        ∧ ¬ dom (_location_events w_pre) ⊆ list_to_set (map data alerts)
        ∧ (clock w_post + 10 ≤ clock w')%Z
        ∧ area ∉ active_areas w').
Proof.
  assert (Hremoval : ∀ w ev w' area,
            step w ev w' →
            is_Some (_location_events w !! area) →
            _location_events w' !! area = None →
            ∃ i wake_at,
              ev = Resume i
              ∧ tasks w !! i = Some (CleanupEntities wake_at)
              ∧ (wake_at ≤ clock w)%Z
              ∧ area ∉ active_areas w).
  { intros w ev w' area Hstep [e He] Hgone.
    destruct Hstep as [w alerts w' Hsub Hupd|w alerts Hsub|w seconds Hpos
                      |w i wake_at Htask Hwake|w i entity Htask].
    - destruct (async_update_spec (set_active_alerts alerts w))
        as (to_add & w'' & Hupd' & Hev & _).
      rewrite Hupd in Hupd'. injection Hupd' as <-.
      rewrite Hev in Hgone. apply lookup_union_None in Hgone as [_ Hgone].
      cbn in Hgone. by rewrite He in Hgone.
    - cbn in Hgone. by rewrite He in Hgone.
    - cbn in Hgone. by rewrite He in Hgone.
    - exists i, wake_at. split_and!; [done..|].
      rewrite cleanup_resumed_events in Hgone.
      case_decide as Hin; [cbn in Hgone; by rewrite He in Hgone|]. exact Hin.
    - cbn in Hgone. by rewrite He in Hgone. }
  split_and!.
  - intros w.
    destruct (async_update_spec w)
      as (to_add & w' & Hupd & Hev & _ & Htasks & _ & _ & _ & _ & _ & Hto_add).
    exists w'. split_and!; [done| | |done].
    + intros area e Hold. rewrite Hev, lookup_union_r; [done|].
      destruct (to_add !! area) as [e'|] eqn:He'; [|done].
      apply Hto_add in He' as (_ & ? & _). congruence.
    + rewrite Htasks. unfold _cleanup_entities_sleep. f_equal.
      destruct (decide (dom (_location_events w) ⊆ active_areas w))
        as [Hsub|Hnsub].
      * rewrite (bool_decide_true (_ ⊆ _)) by done.
        rewrite bool_decide_false; [done|].
        intros Hsize. apply Hsize, size_zero_empty, set_eq. intros area.
        rewrite elem_of_difference. split; [|by intros ?%elem_of_empty].
        intros [Hmapped Hquiet]. destruct Hquiet. by apply Hsub.
      * rewrite (bool_decide_false (_ ⊆ _)) by done.
        rewrite bool_decide_true; [done|].
        intros Hsize%size_zero_empty. apply Hnsub. intros area Hmapped.
        destruct (decide (area ∈ active_areas w)) as [|Hquiet]; [done|].
        exfalso. apply (not_elem_of_empty (C:=gset string) area).
        rewrite <-Hsize. by apply elem_of_difference.
  - apply cleanup_resumed_events.
  - exact Hremoval.
  - intros w0 entry_id w events w' ev w'' area Hinit Hnone Hrun Hstep
      Hmapped Hgone.
    destruct (Hremoval _ _ _ _ Hstep Hmapped Hgone)
      as (i & wake_at & -> & Htask & Hwake & Hquiet).
    destruct (constructor_spec_tasks w0 entry_id)
      as (w1 & Hinit1 & Htasks & _).
    rewrite Hinit in Hinit1. injection Hinit1 as <-.
    assert (Hstart : pending_cleanups w = []).
    { unfold pending_cleanups in *. by rewrite Htasks. }
    destruct (pending_cleanup_history w w' events wake_at Hstart Hrun)
      as (before & alerts & w_pre & w_post & after & Hevents & Hbefore
          & Hrefresh & Hafter & Hwake_at & Hstale).
    { by eapply list_elem_of_lookup_2. }
    exists before, alerts, w_pre, w_post, after.
    split_and!; [done..| |done]. lia.
Qed.

End removal_facts.

Section removal_samples.
Import GeoLocation OrefAlertLocationEventManager.

(** C2, as stated, fails: "רמת רחל" is mapped and under alert, leaves the
    feed, and is removed within the same second by a cleanup that an
    earlier refresh had scheduled for "גדיש". *)
Lemma area_removed_in_the_second_it_left :
  ¬ (∀ events1 w2 events2 w4 area,
       run (H := Sample.env) Sample.started events1 w2 →
       run (H := Sample.env) w2 events2 w4 →
       area ∈ active_areas w2 →
       is_Some (_location_events w2 !! area) →
       _location_events w4 !! area = None →
       (clock w2 + 10 ≤ clock w4)%Z).
Proof.
  intros Hclaim.
  assert (∃ w2 w4,
            run (H := Sample.env) Sample.started
              [Refresh [Sample.ramat_rachel]; Tick 10] w2
            ∧ run (H := Sample.env) w2 [Refresh []; Resume 0] w4
            ∧ "רמת רחל" ∈ active_areas w2
            ∧ is_Some (_location_events w2 !! "רמת רחל")
            ∧ _location_events w4 !! "רמת רחל" = None
            ∧ clock w4 = clock w2)
    as (w2 & w4 & Hrun1 & Hrun2 & Hactive & Hmapped & Hgone & Hclock).
  { eexists _, _. split_and!.
    - eapply run_cons.
      { apply step_refresh; [reflexivity|vm_compute; reflexivity]. }
      eapply run_cons; [apply step_tick; lia|apply run_nil].
    - eapply run_cons.
      { apply step_refresh; [reflexivity|vm_compute; reflexivity]. }
      eapply run_cons; [|apply run_nil].
      apply step_resume_cleanup with (wake_at := 1727800270%Z).
      + vm_compute. reflexivity.
      + vm_compute. discriminate.
    - apply (bool_decide_unpack _). vm_compute. exact I.
    - vm_compute. eexists. reflexivity.
    - vm_compute. reflexivity.
    - vm_compute. reflexivity. }
  specialize (Hclaim _ _ _ _ _ Hrun1 Hrun2 Hactive Hmapped Hgone). lia.
Qed.

End removal_samples.
